(** * Vivo: a shallow embedding of the lexer, the expression evaluator, the
    template engine and the statement runtime, with the properties of the
    specification settled against them.

    Text is modelled as [string] (lists of ASCII characters); the Unicode
    character classes of the source ([is_alphanumeric], [is_whitespace],
    [to_uppercase], ...) are restricted to their ASCII part, where a
    character is one byte and char indices coincide with byte indices. *)

From Stdlib Require Import ZArith QArith String Ascii List Lia.
From Stdlib Require Import Numbers.DecimalString Numbers.DecimalPos.
From stdpp Require Import base gmap strings.

Import ListNotations.
Open Scope string_scope.

(* ------------------------------------------------------------------ *)
(** ** Character classes and string helpers (Rust's [str] API, ASCII part) *)

Module Str.

Definition code (c : ascii) : nat := nat_of_ascii c.

(** [char::is_whitespace]: TAB, LF, VT, FF, CR and SPACE. *)
Definition is_whitespace (c : ascii) : bool :=
  let n := code c in
  ((9 <=? n) && (n <=? 13))%nat || (n =? 32)%nat.

Definition is_ascii_digit (c : ascii) : bool :=
  let n := code c in ((48 <=? n) && (n <=? 57))%nat.

Definition is_upper (c : ascii) : bool :=
  let n := code c in ((65 <=? n) && (n <=? 90))%nat.

Definition is_lower (c : ascii) : bool :=
  let n := code c in ((97 <=? n) && (n <=? 122))%nat.

Definition is_alphabetic (c : ascii) : bool := is_upper c || is_lower c.

Definition is_alphanumeric (c : ascii) : bool :=
  is_alphabetic c || is_ascii_digit c.

(** [u8::to_ascii_lowercase], as [eq_ignore_ascii_case] uses it. *)
Definition to_ascii_lowercase (c : ascii) : ascii :=
  if is_upper c then ascii_of_nat (code c + 32) else c.

(** The Unicode case tables are outside the model: [char::to_uppercase]
    (collected into a [String]) and [str::to_lowercase] (which also looks
    at the context of a final sigma) are parameters of the evaluator. *)
Class CaseMapping : Type := {
  char_to_uppercase : ascii -> string;
  str_to_lowercase : string -> string
}.

Fixpoint map (f : ascii -> ascii) (s : string) : string :=
  match s with
  | EmptyString => EmptyString
  | String c r => String (f c) (map f r)
  end.

(** [str::to_uppercase]: the upper case of each char, concatenated. *)
Fixpoint to_uppercase `{CaseMapping} (s : string) : string :=
  match s with
  | EmptyString => EmptyString
  | String c r => char_to_uppercase c ++ to_uppercase r
  end.

Fixpoint rev (s : string) : string :=
  match s with
  | EmptyString => EmptyString
  | String c r => rev r ++ String c EmptyString
  end.

Fixpoint trim_start (s : string) : string :=
  match s with
  | String c r => if is_whitespace c then trim_start r else s
  | EmptyString => EmptyString
  end.

Definition trim_end (s : string) : string := rev (trim_start (rev s)).

Definition trim (s : string) : string := trim_end (trim_start s).

Definition starts_with (p s : string) : bool := String.prefix p s.

Definition ends_with (p s : string) : bool :=
  let n := String.length s in
  let k := String.length p in
  (k <=? n)%nat && String.eqb (substring (n - k) k s) p.

(** [str::find]: the index of the first occurrence of [p] in [s]. *)
Fixpoint find (p s : string) : option nat :=
  if String.prefix p s then Some 0%nat
  else match s with
       | EmptyString => None
       | String _ r => option_map S (find p r)
       end.

Definition contains (p s : string) : bool :=
  match find p s with Some _ => true | None => false end.

Definition is_empty (s : string) : bool :=
  match s with EmptyString => true | _ => false end.

(** Non-overlapping left-to-right replacement of a non-empty pattern
    [p] (of length [k]) by [t]; [fuel] is the length of [s]. *)
Fixpoint replace_nonempty (fuel : nat) (p t s : string) : string :=
  match fuel with
  | O => s
  | S fuel' =>
      if String.prefix p s
      then t ++ replace_nonempty fuel' p t (substring (String.length p)
                                             (String.length s) s)
      else match s with
           | EmptyString => EmptyString
           | String c r => String c (replace_nonempty fuel' p t r)
           end
  end.

(** With the empty pattern, Rust matches at every char boundary:
    ["ab".replace("", "-") = "-a-b-"]. *)
Fixpoint replace_empty (t s : string) : string :=
  match s with
  | EmptyString => t
  | String c r => t ++ String c (replace_empty t r)
  end.

(** [str::replace]. *)
Definition replace (p t s : string) : string :=
  if String.eqb p "" then replace_empty t s
  else replace_nonempty (String.length s) p t s.

(** [str::matches(p).count()] for a non-empty pattern. *)
Fixpoint count_matches (fuel : nat) (p s : string) : nat :=
  match fuel with
  | O => 0
  | S fuel' =>
      if String.prefix p s
      then S (count_matches fuel' p (substring (String.length p)
                                      (String.length s) s))
      else match s with
           | EmptyString => 0
           | String _ r => count_matches fuel' p r
           end
  end.

Fixpoint repeat (n : nat) (s : string) : string :=
  match n with O => EmptyString | S n' => s ++ repeat n' s end.

(** [std::iter::repeat(base).take(n).collect::<Vec<_>>().join(sep)]. *)
Fixpoint join_repeat (n : nat) (s sep : string) : string :=
  match n with
  | O => EmptyString
  | S O => s
  | S n' => s ++ sep ++ join_repeat n' s sep
  end.

(** [Display] of an integer ([i64::to_string], [usize::to_string]). *)
Definition of_Z (z : Z) : string := NilEmpty.string_of_int (Z.to_int z).
Definition of_nat (n : nat) : string := of_Z (Z.of_nat n).

Definition of_bool (b : bool) : string := if b then "true" else "false".

End Str.

(* ------------------------------------------------------------------ *)
(** ** Number parsing ([str::parse] for [i64], [usize] and [f64]) *)

Module Num.

Definition digit_value (c : ascii) : Z := Z.of_nat (Str.code c - 48).

(** Value of a non-empty run of ASCII digits, [None] on any other character. *)
Fixpoint digits_acc (acc : Z) (s : string) : option Z :=
  match s with
  | EmptyString => Some acc
  | String c r =>
      if Str.is_ascii_digit c then digits_acc (10 * acc + digit_value c) r
      else None
  end.

Definition digits (s : string) : option Z :=
  match s with EmptyString => None | _ => digits_acc 0 s end.

(** [i64::from_str]: an optional sign, then at least one digit, in range. *)
Definition parse_i64 (s : string) : option Z :=
  let v := match s with
           | String "+" r => digits r
           | String "-" r => option_map Z.opp (digits r)
           | _ => digits s
           end in
  match v with
  | Some z => if ((- 2 ^ 63 <=? z) && (z <=? 2 ^ 63 - 1))%Z then Some z else None
  | None => None
  end.

(** [usize::from_str] on a 64-bit target: an optional [+] (a [-] is an
    invalid digit for an unsigned type), then at least one digit, in range. *)
Definition parse_usize (s : string) : option Z :=
  let v := match s with
           | String "+" r => digits r
           | _ => digits s
           end in
  match v with
  | Some z => if (z <=? 2 ^ 64 - 1)%Z then Some z else None
  | None => None
  end.

(** Values of [f64]: a finite value is kept as the exact rational it
    denotes (both zeros are the rational 0, which compares as IEEE does). *)
Inductive F64 : Type :=
| FFinite (q : Q)
| FInf (negative : bool)
| FNaN.

(** Compares [num/den] with [2^e]. *)
Definition cmp_pow2 (num den e : Z) : comparison :=
  if (0 <=? e)%Z then Z.compare num (den * 2 ^ e)
  else Z.compare (num * 2 ^ (- e)) den.

(** Round-to-nearest-even of [num/den] (both positive) to binary64;
    [None] when the rounded value reaches [2^1024] (overflow to infinity). *)
Definition round_binary64 (num den : Z) : option Q :=
  let e0 := (Z.log2 num - Z.log2 den)%Z in
  let e := match cmp_pow2 num den e0 with Lt => (e0 - 1)%Z | _ => e0 end in
  let shift := Z.max (e - 52) (-1074) in
  let a := if (0 <=? shift)%Z then num else (num * 2 ^ (- shift))%Z in
  let b := if (0 <=? shift)%Z then (den * 2 ^ shift)%Z else den in
  let q0 := (a / b)%Z in
  let r := (a mod b)%Z in
  let m := match Z.compare (2 * r) b with
           | Lt => q0
           | Gt => (q0 + 1)%Z
           | Eq => if Z.even q0 then q0 else (q0 + 1)%Z
           end in
  if ((0 <? m) && (1024 <=? Z.log2 m + shift))%Z then None
  else if (0 <=? shift)%Z then Some (inject_Z (m * 2 ^ shift))
  else Some (Qmake m (Z.to_pos (2 ^ (- shift)))).

(** The value [mantissa * 10^exp] rounded to the nearest [f64]. *)
Definition decimal_to_f64 (negative : bool) (mantissa exp : Z) : F64 :=
  if (mantissa =? 0)%Z then FFinite 0
  else
    let num := (mantissa * 10 ^ Z.max exp 0)%Z in
    let den := (10 ^ Z.max (- exp) 0)%Z in
    match round_binary64 num den with
    | Some q => FFinite (if negative then Qopp q else q)
    | None => FInf negative
    end.

(** Integer and fractional digits: accumulated mantissa and digit counts. *)
Fixpoint scan_digits (acc : Z) (n : nat) (s : string) : Z * nat * string :=
  match s with
  | String c r =>
      if Str.is_ascii_digit c then scan_digits (10 * acc + digit_value c) (S n) r
      else (acc, n, s)
  | EmptyString => (acc, n, s)
  end.

(** Exponent digits; like [dec2flt], the exponent stops growing once it
    reaches [0x10000]. *)
Fixpoint scan_exp_digits (acc : Z) (n : nat) (s : string) : Z * nat * string :=
  match s with
  | String c r =>
      if Str.is_ascii_digit c
      then scan_exp_digits (if (acc <? 65536)%Z then 10 * acc + digit_value c
                            else acc) (S n) r
      else (acc, n, s)
  | EmptyString => (acc, n, s)
  end.

(** The exponent part [(e|E) sign? digit+]; [Some 0] when absent. *)
Definition parse_exponent (s : string) : option Z :=
  match s with
  | EmptyString => Some 0%Z
  | String c r =>
      if (Ascii.eqb c "e" || Ascii.eqb c "E")%bool then
        let '(neg, r') := match r with
                          | String "-" r' => (true, r')
                          | String "+" r' => (false, r')
                          | _ => (false, r)
                          end in
        match scan_exp_digits 0 0 r' with
        | (e, S _, EmptyString) => Some (if neg then Z.opp e else e)
        | _ => None
        end
      else None
  end.

(** [Digit+ | Digit+ '.' Digit* | Digit* '.' Digit+], then an exponent. *)
Definition parse_number (negative : bool) (s : string) : option F64 :=
  let '(m1, n1, r1) := scan_digits 0 0 s in
  let '(m2, n2, r2) := match r1 with
                       | String "." r => scan_digits m1 0 r
                       | _ => (m1, 0%nat, r1)
                       end in
  if ((n1 + n2) =? 0)%nat then None
  else match parse_exponent r2 with
       | Some e => Some (decimal_to_f64 negative m2 (e - Z.of_nat n2))
       | None => None
       end.

Definition lower (s : string) : string := Str.map Str.to_ascii_lowercase s.

(** [f64::from_str]: an optional sign, then [inf], [infinity] or [nan]
    (any case), or a decimal number; nothing else, no whitespace. *)
Definition parse_f64 (s : string) : option F64 :=
  let '(negative, body) := match s with
                           | String "-" r => (true, r)
                           | String "+" r => (false, r)
                           | _ => (false, s)
                           end in
  if Str.is_empty body then None
  else if String.eqb (lower body) "nan" then Some FNaN
  else if (String.eqb (lower body) "inf" || String.eqb (lower body) "infinity")%bool
  then Some (FInf negative)
  else parse_number negative body.

(** IEEE comparisons: [NaN] is unordered, infinities bound the finite values. *)
Definition f64_eq (a b : F64) : bool :=
  match a, b with
  | FFinite x, FFinite y => Qeq_bool x y
  | FInf n1, FInf n2 => Bool.eqb n1 n2
  | _, _ => false
  end.

Definition f64_lt (a b : F64) : bool :=
  match a, b with
  | FFinite x, FFinite y => negb (Qle_bool y x)
  | FInf true, FFinite _ | FInf true, FInf false | FFinite _, FInf false => true
  | _, _ => false
  end.

Definition f64_le (a b : F64) : bool := f64_lt a b || f64_eq a b.

End Num.

(* ------------------------------------------------------------------ *)
(** ** The AST ([ast.rs]) *)

Set Warnings "-register-all".

Inductive BinaryOperator : Type :=
| Equal | NotEqual | GreaterThan | LessThan | GreaterEqual | LessEqual.

Inductive LogicalOperator : Type := And | Or.

Inductive UnaryOperator : Type := Not.

(** [ArithmeticOperator] is imported by [template.rs]; [ast.rs] does not
    declare it.  Its variants are the ones [template.rs] names. *)
Inductive ArithmeticOperator : Type :=
| Add | Subtract | Multiply | Divide | Modulo.

(** [Expression]; [EString] and [EVariable] are [Expression::String] and [Expression::Variable].  [Arithmetic] is the
    variant that [template.rs] builds for [${ a + b }] markers; [ast.rs]
    does not declare it, and [eval_expression] has no arm for it. *)
Inductive Expression : Type :=
| EString (s : string)
| EVariable (name : string)
| Number (n : Z)
| MethodCall (object : Expression) (method : string) (arg : option Expression)
| Tuple (items : list Expression)
| BinaryOp (left : Expression) (op : BinaryOperator) (right : Expression)
| LogicalOp (left : Expression) (op : LogicalOperator) (right : Expression)
| UnaryOp (op : UnaryOperator) (operand : Expression)
| Arithmetic (left : Expression) (op : ArithmeticOperator) (right : Expression).

Inductive Statement : Type :=
| Server (protocol port : string) (body : list Statement)
| On (event : string) (body : list Statement)
| Log (e : Expression)
| Send (e : Expression)
| SetVar (name : string) (value : Expression)
| If (condition : Expression) (then_body : list Statement)
     (else_ifs : list (Expression * list Statement))
     (else_body : option (list Statement)).

(* ------------------------------------------------------------------ *)
(** ** Evaluation: diagnostics and the evaluation monad *)

(** The warnings [eprintln!]-ed by the evaluator, kept as data (the
    source prints the argument with [{:?}]). *)
Inductive Diagnostic : Type :=
| WRequires (method : string) (arg : option Expression)
| WNoArguments (method : string)
| WUnknownMethod (method : string)
| WTopLevelTuple.

(** An evaluation yields a value and the warnings printed on the way.
    [None] means the source defines no result: the match of
    [eval_expression] has no arm for the variant, or the code panics. *)
Definition Eval (A : Type) : Type := option (A * list Diagnostic).

Definition ret {A} (a : A) : Eval A := Some (a, []).

Definition bind {A B} (m : Eval A) (k : A -> Eval B) : Eval B :=
  match m with
  | None => None
  | Some (a, w) =>
      match k a with
      | None => None
      | Some (b, w') => Some (b, app w w')
      end
  end.

Definition warn (d : Diagnostic) : Eval unit := Some (tt, [d]).

Notation "x <- m ;; k" := (bind m (fun x => k))
  (at level 100, m at next level, right associativity).

(** The evaluation context: the incoming message, the client identifier
    and the connection's variables ([HashMap<String, String>]). *)
Record Ctx : Type := {
  message : option string;
  client : option string;
  vars : gmap string string
}.

(* ------------------------------------------------------------------ *)
(** ** The template sub-grammar ([template.rs]) *)

Module Template.

(** Reads the longest prefix whose characters satisfy [p]. *)
Fixpoint read_while (p : ascii -> bool) (s : string) : string * string :=
  match s with
  | String c r =>
      if p c then let '(w, rest) := read_while p r in (String c w, rest)
      else (EmptyString, s)
  | EmptyString => (EmptyString, EmptyString)
  end.

(** The text of [${ ... }] up to the brace that closes it ([depth] starts at 1). *)
Fixpoint collect_braces (depth : nat) (s : string) : string :=
  match s with
  | EmptyString => EmptyString
  | String c r =>
      if Ascii.eqb c "{" then String c (collect_braces (S depth) r)
      else if Ascii.eqb c "}" then
        match depth with
        | S O | O => EmptyString
        | S d => String c (collect_braces d r)
        end
      else String c (collect_braces depth r)
  end.

Definition is_ident_char (c : ascii) : bool :=
  Str.is_alphanumeric c || Ascii.eqb c "_".

Definition is_method_char (c : ascii) : bool :=
  Str.is_alphabetic c || Ascii.eqb c "_".

(** The [.method(digits)] chain after [$name]; [None] is the panic of
    [num_str.parse().unwrap()] on a number out of the [i64] range.
    [fuel] bounds the number of links (each consumes a ['.']). *)
Fixpoint parse_chain (fuel : nat) (expr : Expression) (s : string)
  : option Expression :=
  match fuel with
  | O => Some expr
  | S fuel' =>
      match s with
      | String "." r =>
          let '(method_name, r1) := read_while is_method_char r in
          let parsed :=
            match r1 with
            | String "(" r2 =>
                let '(num_str, r3) := read_while Str.is_ascii_digit r2 in
                let r4 := match r3 with String ")" r4 => r4 | _ => r3 end in
                if Str.is_empty num_str then Some (None, r4)
                else match Num.parse_i64 num_str with
                     | Some n => Some (Some (Number n), r4)
                     | None => None
                     end
            | _ => Some (None, r1)
            end in
          match parsed with
          | Some (arg, rest) =>
              parse_chain fuel' (MethodCall expr method_name arg) rest
          | None => None
          end
      | _ => Some expr
      end
  end.

(** The position and the character of the rightmost operator of [ops]
    outside parentheses; [cs_rev] is the text reversed and [i] the index
    just after its head. *)
Fixpoint last_top_op (ops : ascii -> bool) (cs_rev : list ascii) (i : nat)
  (depth : Z) : option (nat * ascii) :=
  match cs_rev with
  | [] => None
  | c :: r =>
      let j := (i - 1)%nat in
      if Ascii.eqb c ")" then last_top_op ops r j (depth + 1)
      else if Ascii.eqb c "(" then last_top_op ops r j (depth - 1)
      else if ops c && (depth =? 0)%Z then Some (j, c)
      else last_top_op ops r j depth
  end.

Definition find_top_op (ops : ascii -> bool) (s : string) : option (nat * ascii) :=
  last_top_op ops (List.rev (list_ascii_of_string s)) (String.length s) 0.

Definition is_additive (c : ascii) : bool := Ascii.eqb c "+" || Ascii.eqb c "-".

Definition is_multiplicative (c : ascii) : bool :=
  Ascii.eqb c "*" || Ascii.eqb c "/" || Ascii.eqb c "%".

Definition prefix_upto (i : nat) (s : string) : string := substring 0 i s.
Definition suffix_from (i : nat) (s : string) : string :=
  substring i (String.length s - i) s.

(** [parse_additive_expr], [parse_multiplicative_expr] and
    [parse_primary_expr]; every recursive call is on a strictly shorter
    text, and [fuel] (three levels per character) bounds the depth. *)
Fixpoint parse_additive_expr (fuel : nat) (s : string) : Expression :=
  match fuel with
  | O => EVariable s
  | S fuel' =>
      match find_top_op is_additive s with
      | Some (i, ch) =>
          Arithmetic (parse_additive_expr fuel' (Str.trim (prefix_upto i s)))
                     (if Ascii.eqb ch "+" then Add else Subtract)
                     (parse_multiplicative_expr fuel'
                        (Str.trim (suffix_from (S i) s)))
      | None => parse_multiplicative_expr fuel' s
      end
  end
with parse_multiplicative_expr (fuel : nat) (s : string) : Expression :=
  match fuel with
  | O => EVariable s
  | S fuel' =>
      match find_top_op is_multiplicative s with
      | Some (i, ch) =>
          Arithmetic (parse_multiplicative_expr fuel' (Str.trim (prefix_upto i s)))
                     (if Ascii.eqb ch "*" then Multiply
                      else if Ascii.eqb ch "/" then Divide else Modulo)
                     (parse_primary_expr fuel' (Str.trim (suffix_from (S i) s)))
      | None => parse_primary_expr fuel' s
      end
  end
with parse_primary_expr (fuel : nat) (s0 : string) : Expression :=
  match fuel with
  | O => EVariable s0
  | S fuel' =>
      let s := Str.trim s0 in
      if Str.starts_with "(" s && Str.ends_with ")" s then
        (* parse_complex_expr(&s[1..s.len()-1]) *)
        parse_additive_expr fuel'
          (Str.trim (substring 1 (String.length s - 2) s))
      else match Num.parse_i64 s with
      | Some n => Number n
      | None =>
          match Str.find "." s with
          | Some dot =>
              let var_name := Str.trim (prefix_upto dot s) in
              let method_part := Str.trim (suffix_from (S dot) s) in
              let method := match Str.find "(" method_part with
                            | Some p => Str.trim (prefix_upto p method_part)
                            | None => method_part
                            end in
              MethodCall (EVariable var_name) method None
          | None => EVariable s
          end
      end
  end.

Definition parse_complex_expr (s : string) : Expression :=
  parse_additive_expr (3 * (String.length s + 1)) (Str.trim s).

Definition parse_template_expr (s : string) : option Expression :=
  match s with
  | String "$" rest =>
      match rest with
      | String "{" r => Some (parse_complex_expr (collect_braces 1 r))
      | _ =>
          let '(var_name, r) := read_while is_ident_char rest in
          parse_chain (S (String.length r)) (EVariable var_name) r
      end
  | _ => Some (EString s)
  end.

End Template.

(* ------------------------------------------------------------------ *)
(** ** The evaluator ([runtime.rs]: [apply_method], [eval_expression];
       [template.rs]: [eval_template]) *)

Module Eval.

(** The shared shape of [contains], [starts_with], [ends_with], [find],
    [remove] and [count]: the method runs only on a non-empty string
    literal; any other argument prints a warning and returns [base]. *)
Definition with_string_arg (label : string) (arg : option Expression)
  (base : string) (f : string -> string) : Eval string :=
  match arg with
  | Some (EString a) =>
      if negb (String.eqb a "") then ret (f a)
      else (_ <- warn (WRequires label arg) ;; ret base)
  | Some _ => _ <- warn (WRequires label arg) ;; ret base
  | None => _ <- warn (WNoArguments label) ;; ret base
  end.

(** [base.repeat(n)]; a count whose byte size exceeds [isize::MAX]
    panics with "capacity overflow". *)
Definition repeat_str (n : Z) (base : string) : Eval string :=
  if negb (Str.is_empty base) && (2 ^ 63 - 1 <? n * Z.of_nat (String.length base))%Z
  then None
  else ret (Str.repeat (Z.to_nat n) base).

(** [typeof]: classification by structural sniffing. *)
Definition type_of (base : string) : string :=
  match Num.parse_f64 base with
  | Some _ => "number"
  | None =>
      if Str.starts_with "(" base && Str.ends_with ")" base then "tuple"
      else if String.eqb base "true" || String.eqb base "false" then "boolean"
      else if Str.is_empty base then "empty"
      else "string"
  end.

Definition is_method (names : list string) (m : string) : bool :=
  existsb (String.eqb m) names.

Section WithCaseMapping.
Context {CM : Str.CaseMapping}.

(** [apply_method]; [ev] evaluates the arguments of [repeat_sep] and
    [replace] ([eval_expression] with the same message, client, vars). *)
Definition apply_method (ev : Expression -> Eval string) (base method : string)
  (arg : option Expression) : Eval string :=
  if is_method ["reverse"] method then ret (Str.rev base)
  else if is_method ["upper"] method then ret (Str.to_uppercase base)
  else if is_method ["lower"] method then ret (Str.str_to_lowercase base)
  else if is_method ["length"; "len"] method then
    ret (Str.of_nat (String.length base))
  else if is_method ["capitalize"; "cap"] method then
    ret (match base with
         | String c r => Str.char_to_uppercase c ++ r
         | EmptyString => EmptyString
         end)
  else if is_method ["contains"] method then
    with_string_arg "contains" arg base
      (fun a => Str.of_bool (Str.contains a base))
  else if is_method ["starts_with"; "startsWith"] method then
    with_string_arg "starts_with" arg base
      (fun a => Str.of_bool (Str.starts_with a base))
  else if is_method ["ends_with"; "endsWith"] method then
    with_string_arg "ends_with" arg base
      (fun a => Str.of_bool (Str.ends_with a base))
  else if is_method ["find"] method then
    with_string_arg "find" arg base
      (fun a => match Str.find a base with
                | Some i => Str.of_nat i
                | None => "-1"
                end)
  else if is_method ["trim"] method then ret (Str.trim base)
  else if is_method ["rtrim"] method then ret (Str.trim_end base)
  else if is_method ["ltrim"] method then ret (Str.trim_start base)
  else if is_method ["repeat"] method then
    match arg with
    | Some (Number n) => repeat_str (n mod 2 ^ 64) base  (* n as usize *)
    | _ => repeat_str 2 base
    end
  else if is_method ["repeat_sep"; "repeatSep"] method then
    match arg with
    | Some (Tuple [a0; a1]) =>
        times_str <- ev a0 ;;
        add <- ev a1 ;;
        let times := match Num.parse_usize times_str with
                     | Some t => t
                     | None => 0%Z
                     end in
        if (times =? 0)%Z then ret base
        else ret (Str.join_repeat (Z.to_nat times) base add)
    | Some _ => _ <- warn (WRequires "repeat_sep" arg) ;; ret base
    | None => _ <- warn (WNoArguments "repeat_sep") ;; ret base
    end
  else if is_method ["replace"] method then
    match arg with
    | Some (Tuple [a0; a1]) =>
        from <- ev a0 ;;
        to <- ev a1 ;;
        ret (Str.replace from to base)
    | Some _ => _ <- warn (WRequires "replace" arg) ;; ret base
    | None => _ <- warn (WNoArguments "replace") ;; ret base
    end
  else if is_method ["remove"] method then
    with_string_arg "remove" arg base (fun a => Str.replace a "" base)
  else if is_method ["count"] method then
    with_string_arg "count" arg base
      (fun a => Str.of_nat (Str.count_matches (String.length base) a base))
  else if is_method ["is_empty"; "isEmpty"] method then
    ret (Str.of_bool (Str.is_empty base))
  else if is_method ["typeof"; "type_of"] method then ret (type_of base)
  else _ <- warn (WUnknownMethod method) ;; ret base.

(** The comparison of a [BinaryOp] on the two operand texts: numeric when
    both parse as [f64], on the raw text otherwise. *)
Definition compare_values (op : BinaryOperator) (left_val right_val : string) : bool :=
  match Num.parse_f64 left_val, Num.parse_f64 right_val with
  | Some l, Some r =>
      match op with
      | Equal => Num.f64_eq l r
      | NotEqual => negb (Num.f64_eq l r)
      | GreaterThan => Num.f64_lt r l
      | LessThan => Num.f64_lt l r
      | GreaterEqual => Num.f64_le r l
      | LessEqual => Num.f64_le l r
      end
  | _, _ =>
      let c := String.compare left_val right_val in
      match op with
      | Equal => String.eqb left_val right_val
      | NotEqual => negb (String.eqb left_val right_val)
      | GreaterThan => match c with Gt => true | _ => false end
      | LessThan => match c with Lt => true | _ => false end
      | GreaterEqual => match c with Lt => false | _ => true end
      | LessEqual => match c with Gt => false | _ => true end
      end
  end.

(** [eval_expression], with the template engine [tmpl] for string
    literals.  The source's match has no arm for [LogicalOp], [UnaryOp]
    and [Arithmetic]: they have no result. *)
Fixpoint eval_expr_with (tmpl : string -> Eval string) (ctx : Ctx)
  (e : Expression) : Eval string :=
  match e with
  | EString s => tmpl s
  | EVariable v =>
      if String.eqb v "message" then ret (default "" (message ctx))
      else if String.eqb v "client" then ret (default "" (client ctx))
      else ret (match vars ctx !! v with
                | Some x => x
                | None => "$" ++ v
                end)
  | Number n => ret (Str.of_Z n)
  | MethodCall object method arg =>
      base <- eval_expr_with tmpl ctx object ;;
      apply_method (eval_expr_with tmpl ctx) base method arg
  | BinaryOp lhs op rhs =>
      left_val <- eval_expr_with tmpl ctx lhs ;;
      right_val <- eval_expr_with tmpl ctx rhs ;;
      ret (Str.of_bool (compare_values op left_val right_val))
  | Tuple _ => _ <- warn WTopLevelTuple ;; ret ""
  | LogicalOp _ _ _ | UnaryOp _ _ | Arithmetic _ _ _ => None
  end.

(** The loop of [eval_template] over [remaining]; [eval_marker] evaluates
    the text between [{{] and [}}].  Each round consumes at least four
    characters, so [fuel = length remaining + 1] suffices. *)
Fixpoint template_loop (eval_marker : string -> Eval string) (fuel : nat)
  (result remaining : string) : Eval string :=
  match fuel with
  | O => ret (result ++ remaining)
  | S fuel' =>
      match Str.find "{{" remaining with
      | None => ret (result ++ remaining)
      | Some start =>
          let before := Template.prefix_upto start remaining in
          let after := Template.suffix_from start remaining in
          let result := result ++ before in
          match Str.find "}}" after with
          | Some end_ =>
              let expr_str := substring 2 (end_ - 2) after in
              evaluated <- eval_marker expr_str ;;
              template_loop eval_marker fuel' (result ++ evaluated)
                (Template.suffix_from (end_ + 2) after)
          | None =>
              let result := result ++ after in
              (* break; then result.push_str(remaining) *)
              ret (result ++ remaining)
          end
      end
  end.

(** [eval_template]: a marker's text is strictly shorter than the
    enclosing literal, so [n = length s + 1] levels of nesting suffice and
    the [O] case is never reached from [eval_template]. *)
Fixpoint eval_template_n (n : nat) (ctx : Ctx) (s : string) : Eval string :=
  match n with
  | O => None
  | S n' =>
      template_loop
        (fun expr_str =>
           match Template.parse_template_expr expr_str with
           | Some expr => eval_expr_with (eval_template_n n' ctx) ctx expr
           | None => None
           end)
        (S (String.length s)) "" s
  end.

Definition eval_template (ctx : Ctx) (s : string) : Eval string :=
  eval_template_n (S (String.length s)) ctx s.

Definition eval_expression (ctx : Ctx) (e : Expression) : Eval string :=
  eval_expr_with (eval_template ctx) ctx e.

End WithCaseMapping.

(** Truthiness of a condition in [execute_statements]. *)
Definition is_true (r : string) : bool :=
  String.eqb r "true" ||
  (negb (String.eqb r "false") && negb (String.eqb r "0") && negb (Str.is_empty r)).

End Eval.

(* ------------------------------------------------------------------ *)
(** ** Tokens and the lexer ([token.rs], [lexer.rs]) *)

Module Token.

(** The tokens [lexer.rs] produces ([token.rs] lists only some of them). *)
Inductive Token : Type :=
| Ident (s : string) | TString (s : string) | TNumber (s : string)
| TVariable (s : string)
| LBrace | RBrace | LParen | RParen | Colon | Dot | Comma
| Plus | Minus | Star | Slash | Percent
| Equals | EqualsEquals | NotEquals | Not
| GreaterThan | GreaterEquals | LessThan | LessEquals
| And | Or
| Server | TCP | On | Log | Send | TSet | If | Else
| EOF.

End Token.

Module Lexer.
Import Token.

Inductive LexError : Type :=
| UnterminatedString (line column : nat)
| InvalidEscape (line column : nat) (character : ascii)
| UnexpectedCharacter (line column : nat) (character : ascii).

Inductive LexResult : Type :=
| LexOk (tokens : list Token)
| LexErr (e : LexError).

Definition chr (c : ascii) : string := String c EmptyString.

Definition LF : ascii := ascii_of_nat 10.
Definition QUOTE : ascii := ascii_of_nat 34.
Definition TAB : ascii := ascii_of_nat 9.
Definition CR : ascii := ascii_of_nat 13.

(** [read_ident]: identifier characters, one column each. *)
Fixpoint read_ident (cs : string) (column : nat) : string * string * nat :=
  match cs with
  | String c r =>
      if Template.is_ident_char c then
        let '(w, rest, col) := read_ident r (S column) in (String c w, rest, col)
      else (EmptyString, cs, column)
  | EmptyString => (EmptyString, EmptyString, column)
  end.

(** [read_method_chain]: while the next character is ['.'], copy it and
    then every character up to and including the next [')'].  [inner] is
    true while copying up to the [')']. *)
Fixpoint read_method_chain (inner : bool) (cs s : string) (column : nat)
  : string * string * nat :=
  match cs with
  | EmptyString => (s, cs, column)
  | String c r =>
      if inner then
        read_method_chain (negb (Ascii.eqb c ")")) r (s ++ chr c) (S column)
      else if Ascii.eqb c "." then read_method_chain true r (s ++ chr c) (S column)
      else (s, cs, column)
  end.

(** The [${ ... }] copy inside a string literal, after the ['{']: raw
    characters up to the balancing ['}'], which is written as ["}}"]. *)
Fixpoint scan_braces (depth : nat) (cs s : string) (column : nat)
  : string * string * nat :=
  match cs with
  | EmptyString => (s, EmptyString, column)
  | String c r =>
      if Ascii.eqb c "{" then scan_braces (S depth) r (s ++ chr c) (S column)
      else if Ascii.eqb c "}" then
        if (depth =? 1)%nat then (s ++ chr "}" ++ "}", r, S column)
        else scan_braces (depth - 1) r (s ++ chr c) (S column)
      else scan_braces depth r (s ++ chr c) (S column)
  end.

Definition decode_escape (c : ascii) : option ascii :=
  if Ascii.eqb c "n" then Some LF
  else if Ascii.eqb c "t" then Some TAB
  else if Ascii.eqb c "r" then Some CR
  else if Ascii.eqb c "\" then Some "\"%char
  else if Ascii.eqb c QUOTE then Some QUOTE
  else None.

Inductive ScanResult : Type :=
| ScanOk (s rest : string) (column : nat)
| ScanErr (e : LexError).

(** The body of a string literal, after the opening quote at
    [(line, start_column)]; [column] is the column after the last character
    read.  Each round consumes at least one character, so [fuel] equal to
    the length of [cs] plus one suffices. *)
Fixpoint scan_string (fuel : nat) (line start_column : nat) (cs s : string)
  (column : nat) : ScanResult :=
  match fuel with
  | O => ScanErr (UnterminatedString line start_column)
  | S fuel' =>
      match cs with
      | EmptyString => ScanErr (UnterminatedString line start_column)
      | String ch r =>
          let column := S column in
          if Ascii.eqb ch QUOTE then ScanOk s r column
          else if Ascii.eqb ch LF then ScanErr (UnterminatedString line start_column)
          else if Ascii.eqb ch "\" then
            match r with
            | EmptyString => ScanErr (UnterminatedString line start_column)
            | String next_ch r' =>
                let column := S column in
                match decode_escape next_ch with
                | Some d => scan_string fuel' line start_column r' (s ++ chr d) column
                | None => ScanErr (InvalidEscape line (column - 1) next_ch)
                end
            end
          else if Ascii.eqb ch "$" then
            match r with
            | String "{" r' =>
                let '(s', rest, col) := scan_braces 1 r' (s ++ "{{$" ++ "{") (S column) in
                scan_string fuel' line start_column rest s' col
            | _ =>
                let '(ident, r1, col1) := read_ident r column in
                let '(var_expr, r2, col2) := read_method_chain false r1 ("$" ++ ident) col1 in
                scan_string fuel' line start_column r2 (s ++ "{{" ++ var_expr ++ "}}") col2
            end
          else scan_string fuel' line start_column r (s ++ chr ch) column
      end
  end.

(** A [//] comment: the characters up to (not including) the next newline. *)
Fixpoint skip_comment (cs : string) (column : nat) : string * nat :=
  match cs with
  | String c r => if Ascii.eqb c LF then (cs, column) else skip_comment r (S column)
  | EmptyString => (EmptyString, column)
  end.

(** The digits after the first digit of a number. *)
Fixpoint read_digits (cs : string) (column : nat) : string * string * nat :=
  match cs with
  | String c r =>
      if Str.is_ascii_digit c then
        let '(w, rest, col) := read_digits r (S column) in (String c w, rest, col)
      else (EmptyString, cs, column)
  | EmptyString => (EmptyString, EmptyString, column)
  end.

Definition keyword (ident : string) : Token :=
  if String.eqb ident "server" then Server
  else if String.eqb ident "tcp" then TCP
  else if String.eqb ident "on" then On
  else if String.eqb ident "log" then Log
  else if String.eqb ident "send" then Send
  else if String.eqb ident "set" then TSet
  else if String.eqb ident "if" then If
  else if String.eqb ident "else" then Else
  else Ident ident.

(** A two-character operator [c1 c2] or the one-character [c1]. *)
Definition two_or_one (second : ascii) (cs : string) (t2 t1 : Token)
  : Token * string * nat :=
  match cs with
  | String c r => if Ascii.eqb c second then (t2, r, 2%nat) else (t1, cs, 1%nat)
  | EmptyString => (t1, cs, 1%nat)
  end.

(** The main loop of [lex]; [tokens] is the vector being pushed to.  Each
    round consumes at least one character, so [fuel] equal to the length
    of the source plus one suffices. *)
Fixpoint lex_loop (fuel : nat) (cs : string) (line column : nat)
  (tokens : list Token) : LexResult :=
  match fuel with
  | O => LexOk (tokens ++ [EOF])
  | S fuel' =>
      match cs with
      | EmptyString => LexOk (tokens ++ [EOF])
      | String c r =>
          let push t rest col := lex_loop fuel' rest line col (tokens ++ [t]) in
          if Ascii.eqb c "/" then
            match r with
            | String "/" r' =>
                let '(rest, col) := skip_comment r' column in
                lex_loop fuel' rest line col tokens
            | _ => push Slash r (S column)
            end
          (* single punctuation: the column is not advanced *)
          else if Ascii.eqb c "{" then push LBrace r column
          else if Ascii.eqb c "}" then push RBrace r column
          else if Ascii.eqb c "(" then push LParen r column
          else if Ascii.eqb c ")" then push RParen r column
          else if Ascii.eqb c ":" then push Colon r column
          else if Ascii.eqb c "." then push Dot r column
          else if Ascii.eqb c "," then push Comma r column
          else if Ascii.eqb c "+" then push Plus r column
          else if Ascii.eqb c "-" then push Minus r column
          else if Ascii.eqb c "*" then push Star r column
          else if Ascii.eqb c "%" then push Percent r column
          else if Ascii.eqb c "=" then
            let '(t, rest, w) := two_or_one "=" r EqualsEquals Equals in
            push t rest (column + w)
          else if Ascii.eqb c "&" then
            match r with
            | String "&" r' => push And r' (column + 2)
            | _ => LexErr (UnexpectedCharacter line column c)
            end
          else if Ascii.eqb c "|" then
            match r with
            | String "|" r' => push Or r' (column + 2)
            | _ => LexErr (UnexpectedCharacter line column c)
            end
          else if Ascii.eqb c "!" then
            let '(t, rest, w) := two_or_one "=" r NotEquals Not in
            push t rest (column + w)
          else if Ascii.eqb c ">" then
            let '(t, rest, w) := two_or_one "=" r GreaterEquals GreaterThan in
            push t rest (column + w)
          else if Ascii.eqb c "<" then
            let '(t, rest, w) := two_or_one "=" r LessEquals LessThan in
            push t rest (column + w)
          else if Ascii.eqb c QUOTE then
            match scan_string (S (String.length r)) line column r "" (S column) with
            | ScanOk s rest col => push (TString s) rest col
            | ScanErr e => LexErr e
            end
          else if Ascii.eqb c "$" then
            let '(var, rest, col) := read_ident r (S column) in
            push (TVariable var) rest col
          else if Str.is_alphabetic c then
            let '(ident, rest, col) := read_ident r (S column) in
            push (keyword (String c ident)) rest col
          else if Str.is_ascii_digit c then
            let '(num, rest, col) := read_digits r (S column) in
            push (TNumber (String c num)) rest col
          else if Ascii.eqb c LF then lex_loop fuel' r (S line) 1 tokens
          else if Str.is_whitespace c then lex_loop fuel' r line (S column) tokens
          else if Ascii.eqb c "," || Ascii.eqb c ";" then
            lex_loop fuel' r line (S column) tokens
          else LexErr (UnexpectedCharacter line column c)
      end
  end.

Definition lex (src : string) : LexResult :=
  lex_loop (S (String.length src)) src 1 1 [].

End Lexer.

(* ------------------------------------------------------------------ *)
(** ** The parser ([parser.rs]) *)

Module Parser.

(** The [found] text of an error: [format!("{:?}", tokens.get(i))] or
    [format!("{:?}", tokens[i])], kept as the value it prints. *)
Inductive Found : Type :=
| FoundGet (t : option Token.Token)
| FoundAt (t : Token.Token).

Inductive ParseError : Type :=
| UnexpectedToken (expected : string) (found : Found) (position : nat)
| UnexpectedEof (expected : string)
| InvalidExpression (position : nat).

(** A parsing function returns its value and the new index [i], an error,
    or runs out of [fuel]. *)
Inductive Parsed (A : Type) : Type :=
| Ok (a : A) (i : nat)
| Err (e : ParseError)
| NoFuel.
Arguments Ok {A} a i.
Arguments Err {A} e.
Arguments NoFuel {A}.

Definition pbind {A B} (m : Parsed A) (k : A -> nat -> Parsed B) : Parsed B :=
  match m with
  | Ok a i => k a i
  | Err e => Err e
  | NoFuel => NoFuel
  end.

Notation "'let!' x , i := m 'in' k" := (pbind m (fun x i => k))
  (at level 200, x name, i name, m at level 100, k at level 200).

Definition comparison_op (t : Token.Token) : option BinaryOperator :=
  match t with
  | Token.EqualsEquals => Some Equal
  | Token.NotEquals => Some NotEqual
  | Token.GreaterThan => Some GreaterThan
  | Token.LessThan => Some LessThan
  | Token.GreaterEquals => Some GreaterEqual
  | Token.LessEquals => Some LessEqual
  | _ => None
  end.

(** The argument of a method call from its argument list. *)
Definition call_arg (args : list Expression) : option Expression :=
  match args with
  | [] => None
  | [a] => Some a
  | _ => Some (Tuple args)
  end.

(** The expression parsers.  [or_loop] and [and_loop] are the [while]
    loops of [parse_logical_or] and [parse_logical_and], [method_loop]
    the method-call loop of [parse_primary_expression] and [args_loop] its
    argument loop.  Every function spends one unit of [fuel]. *)
Fixpoint parse_expression (fuel : nat) (ts : list Token.Token) (i : nat)
  : Parsed Expression :=
  match fuel with
  | O => NoFuel
  | S f => parse_logical_or f ts i
  end
with parse_logical_or (fuel : nat) (ts : list Token.Token) (i : nat)
  : Parsed Expression :=
  match fuel with
  | O => NoFuel
  | S f => let! lhs, i := parse_logical_and f ts i in or_loop f ts lhs i
  end
with or_loop (fuel : nat) (ts : list Token.Token) (lhs : Expression) (i : nat)
  : Parsed Expression :=
  match fuel with
  | O => NoFuel
  | S f =>
      match nth_error ts i with
      | Some Token.Or =>
          let! rhs, i := parse_logical_and f ts (S i) in
          or_loop f ts (LogicalOp lhs Or rhs) i
      | _ => Ok lhs i
      end
  end
with parse_logical_and (fuel : nat) (ts : list Token.Token) (i : nat)
  : Parsed Expression :=
  match fuel with
  | O => NoFuel
  | S f => let! lhs, i := parse_comparison f ts i in and_loop f ts lhs i
  end
with and_loop (fuel : nat) (ts : list Token.Token) (lhs : Expression) (i : nat)
  : Parsed Expression :=
  match fuel with
  | O => NoFuel
  | S f =>
      match nth_error ts i with
      | Some Token.And =>
          let! rhs, i := parse_comparison f ts (S i) in
          and_loop f ts (LogicalOp lhs And rhs) i
      | _ => Ok lhs i
      end
  end
with parse_comparison (fuel : nat) (ts : list Token.Token) (i : nat)
  : Parsed Expression :=
  match fuel with
  | O => NoFuel
  | S f =>
      if (length ts <=? i)%nat then Err (UnexpectedEof "expression")
      else
        let! expr, i := parse_unary f ts i in
        match match nth_error ts i with Some t => comparison_op t | None => None end with
        | Some operator =>
            let! rhs, i := parse_unary f ts (S i) in
            Ok (BinaryOp expr operator rhs) i
        | None => Ok expr i
        end
  end
with parse_unary (fuel : nat) (ts : list Token.Token) (i : nat)
  : Parsed Expression :=
  match fuel with
  | O => NoFuel
  | S f =>
      if (length ts <=? i)%nat then Err (UnexpectedEof "expression")
      else match nth_error ts i with
           | Some Token.Not =>
               let! operand, i := parse_unary f ts (S i) in
               Ok (UnaryOp Not operand) i
           | _ => parse_primary_expression f ts i
           end
  end
with parse_primary_expression (fuel : nat) (ts : list Token.Token) (i : nat)
  : Parsed Expression :=
  match fuel with
  | O => NoFuel
  | S f =>
      if (length ts <=? i)%nat then Err (UnexpectedEof "expression")
      else match nth_error ts i with
      | Some Token.LParen =>
          let! expr, i := parse_expression f ts (S i) in
          match nth_error ts i with
          | Some Token.RParen => Ok expr (S i)
          | t => Err (UnexpectedToken "')'" (FoundGet t) i)
          end
      | t =>
          let base :=
            match t with
            | Some (Token.TString s) => Ok (EString s) (S i)
            | Some (Token.TVariable v) | Some (Token.Ident v) => Ok (EVariable v) (S i)
            | Some (Token.TNumber n) =>
                match Num.parse_i64 n with
                | Some value => Ok (Number value) (S i)
                | None => Err (InvalidExpression i)
                end
            | _ => Err (UnexpectedToken "expression" (FoundGet t) i)
            end in
          let! expr, i := base in method_loop f ts expr i
      end
  end
with method_loop (fuel : nat) (ts : list Token.Token) (expr : Expression) (i : nat)
  : Parsed Expression :=
  match fuel with
  | O => NoFuel
  | S f =>
      match nth_error ts i with
      | Some Token.Dot =>
          match nth_error ts (S i) with
          | Some (Token.Ident method) =>
              let i := S (S i) in
              let! args, i :=
                match nth_error ts i with
                | Some Token.LParen =>
                    let! args, i := args_loop f ts [] (S i) in
                    match nth_error ts i with
                    | Some Token.RParen => Ok args (S i)
                    | t => Err (UnexpectedToken "')'" (FoundGet t) i)
                    end
                | _ => Ok [] i
                end in
              method_loop f ts (MethodCall expr method (call_arg args)) i
          | t => Err (UnexpectedToken "method name" (FoundGet t) (S i))
          end
      | _ => Ok expr i
      end
  end
with args_loop (fuel : nat) (ts : list Token.Token) (args : list Expression) (i : nat)
  : Parsed (list Expression) :=
  match fuel with
  | O => NoFuel
  | S f =>
      match nth_error ts i with
      | None | Some Token.RParen => Ok args i
      | Some _ =>
          let! arg_expr, i := parse_expression f ts i in
          let args := app args [arg_expr] in
          match nth_error ts i with
          | Some Token.Comma => args_loop f ts args (S i)
          | _ => Ok args i
          end
      end
  end.

(** [parse_single_statement], with the [while] loops of its blocks:
    [block_loop] (statements up to ['}']), [else_if_loop] and
    [final_else]. *)
Fixpoint parse_single_statement (fuel : nat) (ts : list Token.Token) (i : nat)
  : Parsed Statement :=
  match fuel with
  | O => NoFuel
  | S f =>
      match nth_error ts i with
      | None => Err (UnexpectedEof "statement")
      | Some t =>
          match t with
          | Token.Ident name =>
              match nth_error ts (S i) with
              | Some Token.Equals =>
                  let! value, i := parse_expression f ts (S (S i)) in
                  Ok (SetVar name value) i
              | _ => Err (UnexpectedToken "statement (set, if, log, send)" (FoundAt t) i)
              end
          | Token.If =>
              let! condition, i := parse_expression f ts (S i) in
              match nth_error ts i with
              | Some Token.LBrace =>
                  let! then_body, i := block_loop f ts [] (S i) in
                  match nth_error ts i with
                  | Some Token.RBrace =>
                      let! else_ifs, i := else_if_loop f ts [] (S i) in
                      let! else_body, i := final_else f ts i in
                      Ok (If condition then_body else_ifs else_body) i
                  | _ => Err (UnexpectedEof "'}'")
                  end
              | t' => Err (UnexpectedToken "'{'" (FoundGet t') i)
              end
          | Token.TSet =>
              match nth_error ts (S i) with
              | None => Err (UnexpectedEof "variable name")
              | Some (Token.Ident n) =>
                  match nth_error ts (S (S i)) with
                  | Some Token.Equals =>
                      let! value, i := parse_expression f ts (S (S (S i))) in
                      Ok (SetVar n value) i
                  | t' => Err (UnexpectedToken "'='" (FoundGet t') (S (S i)))
                  end
              | Some t' => Err (UnexpectedToken "variable name" (FoundAt t') (S i))
              end
          | Token.Log =>
              match nth_error ts (S i) with
              | Some Token.LParen =>
                  let! expr, i := parse_expression f ts (S (S i)) in
                  match nth_error ts i with
                  | Some Token.RParen => Ok (Log expr) (S i)
                  | t' => Err (UnexpectedToken "')'" (FoundGet t') i)
                  end
              | t' => Err (UnexpectedToken "'('" (FoundGet t') (S i))
              end
          | Token.Send =>
              match nth_error ts (S i) with
              | Some Token.LParen =>
                  let! expr, i := parse_expression f ts (S (S i)) in
                  match nth_error ts i with
                  | Some Token.RParen => Ok (Send expr) (S i)
                  | t' => Err (UnexpectedToken "')'" (FoundGet t') i)
                  end
              | t' => Err (UnexpectedToken "'('" (FoundGet t') (S i))
              end
          | _ => Err (UnexpectedToken "statement (set, if, log, send)" (FoundAt t) i)
          end
      end
  end
with block_loop (fuel : nat) (ts : list Token.Token) (acc : list Statement) (i : nat)
  : Parsed (list Statement) :=
  match fuel with
  | O => NoFuel
  | S f =>
      match nth_error ts i with
      | None | Some Token.RBrace => Ok acc i
      | Some _ =>
          let! s, i := parse_single_statement f ts i in
          block_loop f ts (app acc [s]) i
      end
  end
with else_if_loop (fuel : nat) (ts : list Token.Token)
  (acc : list (Expression * list Statement)) (i : nat)
  : Parsed (list (Expression * list Statement)) :=
  match fuel with
  | O => NoFuel
  | S f =>
      match nth_error ts i, nth_error ts (S i) with
      | Some Token.Else, Some Token.If =>
          let! c, i := parse_expression f ts (S (S i)) in
          match nth_error ts i with
          | Some Token.LBrace =>
              let! body, i := block_loop f ts [] (S i) in
              match nth_error ts i with
              | Some Token.RBrace => else_if_loop f ts (app acc [(c, body)]) (S i)
              | _ => Err (UnexpectedEof "'}'")
              end
          | t => Err (UnexpectedToken "'{'" (FoundGet t) i)
          end
      | _, _ => Ok acc i
      end
  end
with final_else (fuel : nat) (ts : list Token.Token) (i : nat)
  : Parsed (option (list Statement)) :=
  match fuel with
  | O => NoFuel
  | S f =>
      match nth_error ts i with
      | Some Token.Else =>
          match nth_error ts (S i) with
          | Some Token.LBrace =>
              let! stmts, i := block_loop f ts [] (S (S i)) in
              match nth_error ts i with
              | Some Token.RBrace => Ok (Some stmts) (S i)
              | _ => Err (UnexpectedEof "'}'")
              end
          | t => Err (UnexpectedToken "'{'" (FoundGet t) (S i))
          end
      | _ => Ok None i
      end
  end.

(** The statements of an [on] handler, up to ['}'] or [EOF]. *)
Fixpoint event_loop (fuel : nat) (ts : list Token.Token) (inner : list Statement)
  (i : nat) : Parsed (list Statement) :=
  match fuel with
  | O => NoFuel
  | S f =>
      match nth_error ts i with
      | None | Some Token.RBrace | Some Token.EOF => Ok inner i
      | Some _ =>
          let! s, i := parse_single_statement f ts i in
          event_loop f ts (app inner [s]) i
      end
  end.

(** The handlers of a [server] body, up to ['}'] or [EOF]. *)
Fixpoint server_body_loop (fuel : nat) (ts : list Token.Token)
  (body : list Statement) (i : nat) : Parsed (list Statement) :=
  match fuel with
  | O => NoFuel
  | S f =>
      match nth_error ts i with
      | None | Some Token.RBrace | Some Token.EOF => Ok body i
      | Some Token.On =>
          match nth_error ts (S i) with
          | None => Err (UnexpectedEof "event name")
          | Some (Token.Ident event) =>
              match nth_error ts (S (S i)) with
              | None => Err (UnexpectedEof "'{'")
              | Some Token.LBrace =>
                  let! inner, i := event_loop f ts [] (S (S (S i))) in
                  match nth_error ts i with
                  | None => Err (UnexpectedEof "'}'")
                  | Some Token.RBrace =>
                      server_body_loop f ts (app body [On event inner]) (S i)
                  | Some t => Err (UnexpectedToken "'}'" (FoundAt t) i)
                  end
              | Some t => Err (UnexpectedToken "'{'" (FoundAt t) (S (S i)))
              end
          | Some t =>
              Err (UnexpectedToken "event name (connect, message, disconnect)"
                     (FoundAt t) (S i))
          end
      | Some t => Err (UnexpectedToken "'on' or '}'" (FoundAt t) i)
      end
  end.

(** The top-level loop of [parse]. *)
Fixpoint parse_loop (fuel : nat) (ts : list Token.Token) (stmts : list Statement)
  (i : nat) : Parsed (list Statement) :=
  match fuel with
  | O => NoFuel
  | S f =>
      match nth_error ts i with
      | None => Ok stmts i
      | Some Token.Server =>
          match nth_error ts (S i) with
          | None => Err (UnexpectedEof "protocol (tcp)")
          | Some Token.TCP =>
              match nth_error ts (S (S i)) with
              | None => Err (UnexpectedEof "port string")
              | Some (Token.TString port) =>
                  match nth_error ts (S (S (S i))) with
                  | None => Err (UnexpectedEof "'{'")
                  | Some Token.LBrace =>
                      let! body, i := server_body_loop f ts [] (S (S (S (S i)))) in
                      match nth_error ts i with
                      | None => Err (UnexpectedEof "'}'")
                      | Some t =>
                          let i := match t with Token.RBrace => S i | _ => i end in
                          parse_loop f ts (app stmts [Server "tcp" port body]) i
                      end
                  | Some t => Err (UnexpectedToken "'{'" (FoundAt t) (S (S (S i))))
                  end
              | Some t => Err (UnexpectedToken "port string" (FoundAt t) (S (S i)))
              end
          | Some t => Err (UnexpectedToken "tcp" (FoundAt t) (S i))
          end
      | Some Token.EOF => Ok stmts i
      | Some t => Err (UnexpectedToken "'server' declaration" (FoundAt t) i)
      end
  end.

(** The fuel given to [parse]: each token accounts for a bounded number of
    nested calls (at most nine expression levels between two tokens). *)
Definition parse_fuel (ts : list Token.Token) : nat := 16 * (length ts + 1).

(** [parse]; [None] only when the fuel runs out. *)
Definition parse (ts : list Token.Token) : option (ParseError + list Statement) :=
  match parse_loop (parse_fuel ts) ts [] 0 with
  | Ok stmts _ => Some (inr stmts)
  | Err e => Some (inl e)
  | NoFuel => None
  end.

(** [parse_expression] from the start of a token list, with the same fuel. *)
Definition parse_expr (ts : list Token.Token) : Parsed Expression :=
  parse_expression (parse_fuel ts) ts 0.

End Parser.

(* ------------------------------------------------------------------ *)
(** ** Executing the statements of a handler ([execute_statements]) *)

Module Runtime.

(** What the execution of a handler emits, in order: console lines
    ([println!] / [eprintln!]) and the bytes written to the socket. *)
Inductive Output : Type :=
| OSet (name value : string)           (* "[addr] SET: name = value" *)
| OLog (text : string)                 (* "[addr] LOG: text" *)
| OWrite (bytes : string)              (* socket.write_all *)
| OSent (text : string)                (* "[addr] SENT: text" *)
| OWarn (d : Diagnostic)               (* evaluator warnings *)
| OHandlerError (event_name : string). (* "[addr] Error executing 'event_name' handler: e" *)

(** The connection's state: its variable store and what was emitted. *)
Record RtState : Type := {
  rt_vars : gmap string string;
  rt_out : list Output
}.

(** The outcome of [socket.write_all(..)] followed by [socket.flush()]. *)
Inductive WriteResult : Type :=
| WriteOk
| WriteAllErr    (* write_all fails: its [?] returns the error *)
| FlushErr.      (* write_all succeeds, flush fails *)

(** The peer's side of the connection: the outcome of the next write,
    given everything the connection has emitted before it.  Every write
    attempt is followed by new output (the bytes, or the handler's error
    line), so any sequence of outcomes is some [Socket]. *)
Definition Socket : Type := list Output -> WriteResult.

(** The [Result] of [execute_statements]: [Ok(())] or the [Err] of a
    failed write, each with the state reached; a panic is [None]. *)
Inductive Outcome : Type :=
| Done (st : RtState)
| Failed (st : RtState).

Definition ctx_of (message client : option string) (st : RtState) : Ctx :=
  {| message := message; client := client; vars := rt_vars st |}.

Definition emit (st : RtState) (o : list Output) : RtState :=
  {| rt_vars := rt_vars st; rt_out := rt_out st ++ o |}.

Section WithCaseMapping.
Context {CM : Str.CaseMapping}.

(** Evaluates [e] against the current store, recording its warnings. *)
Definition eval_in (message client : option string) (st : RtState)
  (e : Expression) : option (string * RtState) :=
  match Eval.eval_expression (ctx_of message client st) e with
  | Some (v, ws) =>
      Some (v, {| rt_vars := rt_vars st; rt_out := rt_out st ++ List.map OWarn ws |})
  | None => None
  end.

(** [execute_statements].  Its [If] arm binds [condition], [then_body] and
    [else_body] only: the [else_ifs] are never looked at.  A failed write
    of [Send] ends the list with [Err]; the variables set before it stay
    set (the store is shared). *)
Fixpoint exec_statement (sock : Socket) (message client : option string)
  (stmt : Statement) (st : RtState) : option Outcome :=
  let fix exec_list (stmts : list Statement) (st : RtState) : option Outcome :=
    match stmts with
    | [] => Some (Done st)
    | s :: rest =>
        match exec_statement sock message client s st with
        | Some (Done st') => exec_list rest st'
        | r => r
        end
    end in
  match stmt with
  | SetVar name value =>
      match eval_in message client st value with
      | Some (evaluated, st1) =>
          Some (Done {| rt_vars := <[name := evaluated]> (rt_vars st1);
                        rt_out := rt_out st1 ++ [OSet name evaluated] |})
      | None => None
      end
  | If condition then_body _ else_body =>
      match eval_in message client st condition with
      | Some (condition_result, st1) =>
          if Eval.is_true condition_result then exec_list then_body st1
          else match else_body with
               | Some else_stmts => exec_list else_stmts st1
               | None => Some (Done st1)
               end
      | None => None
      end
  | Log e =>
      match eval_in message client st e with
      | Some (output, st1) => Some (Done (emit st1 [OLog output]))
      | None => None
      end
  | Send e =>
      match eval_in message client st e with
      | Some (output, st1) =>
          let msg_with_newline := output ++ Lexer.chr Lexer.LF in
          match sock (rt_out st1) with
          | WriteOk => Some (Done (emit st1 [OWrite msg_with_newline; OSent output]))
          | WriteAllErr => Some (Failed st1)
          | FlushErr => Some (Failed (emit st1 [OWrite msg_with_newline]))
          end
      | None => None
      end
  | Server _ _ _ | On _ _ => Some (Done st)
  end.

Fixpoint exec_statements (sock : Socket) (message client : option string)
  (stmts : list Statement) (st : RtState) : option Outcome :=
  match stmts with
  | [] => Some (Done st)
  | s :: rest =>
      match exec_statement sock message client s st with
      | Some (Done st') => exec_statements sock message client rest st'
      | r => r
      end
  end.

(** [trigger_event]: the handlers named [event_name], in order, against the
    same variable store; the [Err] of a handler is printed and the next
    handler runs. *)
Fixpoint trigger_event (sock : Socket) (events : list Statement)
  (event_name : string) (message client : option string) (st : RtState)
  : option RtState :=
  match events with
  | [] => Some st
  | On event body :: rest =>
      if String.eqb event event_name then
        match exec_statements sock message client body st with
        | Some (Done st') => trigger_event sock rest event_name message client st'
        | Some (Failed st') =>
            trigger_event sock rest event_name message client
              (emit st' [OHandlerError event_name])
        | None => None
        end
      else trigger_event sock rest event_name message client st
  | _ :: rest => trigger_event sock rest event_name message client st
  end.

End WithCaseMapping.

(** [extract_events]: the [On] statements of a server body, in order. *)
Definition extract_events (body : list Statement) : list Statement :=
  List.filter (fun stmt => match stmt with On _ _ => true | _ => false end) body.

(** [msg.trim_end_matches(&['\r', '\n'][..])]. *)
Definition is_crlf (c : ascii) : bool := Ascii.eqb c Lexer.CR || Ascii.eqb c Lexer.LF.

Fixpoint trim_start_crlf (s : string) : string :=
  match s with
  | String c r => if is_crlf c then trim_start_crlf r else s
  | EmptyString => EmptyString
  end.

Definition trim_end_crlf (s : string) : string := Str.rev (trim_start_crlf (Str.rev s)).

End Runtime.

(* ================================================================== *)
(** * Reference definitions used by the statements *)

Module Spec.

(** The position of the [i]-th character (from 0) of a source text as a
    1-based line and column: lines end at LF. *)
Fixpoint actual_position_from (line column i : nat) (src : string) : nat * nat :=
  match i, src with
  | O, _ => (line, column)
  | S i', String c r =>
      if Ascii.eqb c Lexer.LF then actual_position_from (S line) 1 i' r
      else actual_position_from line (S column) i' r
  | S _, EmptyString => (line, column)
  end.

Definition actual_position (src : string) (i : nat) : nat * nat :=
  actual_position_from 1 1 i src.

(** The empty connection state. *)
Definition st0 : Runtime.RtState := {| Runtime.rt_vars := ∅; Runtime.rt_out := [] |}.

(** A source text with an unterminated string literal: [log(], a quote,
    then [hi)]. *)
Definition log_unterminated : string := "log(" ++ Lexer.chr Lexer.QUOTE ++ "hi)".

(** Numeric comparison of two finite values, read off the operator. *)
Definition numeric_compare (op : BinaryOperator) (x y : Q) : bool :=
  match op with
  | Equal => match Qcompare x y with Eq => true | _ => false end
  | NotEqual => match Qcompare x y with Eq => false | _ => true end
  | GreaterThan => match Qcompare x y with Gt => true | _ => false end
  | LessThan => match Qcompare x y with Lt => true | _ => false end
  | GreaterEqual => match Qcompare x y with Lt => false | _ => true end
  | LessEqual => match Qcompare x y with Gt => false | _ => true end
  end.

(** The order of two [f64] values as IEEE 754 defines it: none when
    either is NaN; the infinities below and above every finite value. *)
Definition ieee_order (a b : Num.F64) : option comparison :=
  match a, b with
  | Num.FNaN, _ | _, Num.FNaN => None
  | Num.FFinite x, Num.FFinite y => Some (Qcompare x y)
  | Num.FInf n1, Num.FInf n2 =>
      Some (if Bool.eqb n1 n2 then Eq else if n1 then Lt else Gt)
  | Num.FInf n, Num.FFinite _ => Some (if n then Lt else Gt)
  | Num.FFinite _, Num.FInf n => Some (if n then Gt else Lt)
  end.

(** Numeric comparison of two [f64] values: on NaN every operator but
    [!=] is false. *)
Definition ieee_compare (op : BinaryOperator) (x y : Num.F64) : bool :=
  match ieee_order x y with
  | None => match op with NotEqual => true | _ => false end
  | Some c =>
      match op with
      | Equal => match c with Eq => true | _ => false end
      | NotEqual => match c with Eq => false | _ => true end
      | GreaterThan => match c with Gt => true | _ => false end
      | LessThan => match c with Lt => true | _ => false end
      | GreaterEqual => match c with Lt => false | _ => true end
      | LessEqual => match c with Gt => false | _ => true end
      end
  end.

(** Comparison of two texts: equality, and the lexicographic order on
    their bytes. *)
Definition text_compare (op : BinaryOperator) (l r : string) : bool :=
  match op with
  | Equal => String.eqb l r
  | NotEqual => negb (String.eqb l r)
  | GreaterThan => match String.compare l r with Gt => true | _ => false end
  | LessThan => match String.compare l r with Lt => true | _ => false end
  | GreaterEqual => match String.compare l r with Lt => false | _ => true end
  | LessEqual => match String.compare l r with Gt => false | _ => true end
  end.

(** The method names [apply_method] knows. *)
Definition library_methods : list string :=
  ["reverse"; "upper"; "lower"; "length"; "len"; "capitalize"; "cap";
   "contains"; "starts_with"; "startsWith"; "ends_with"; "endsWith"; "find";
   "trim"; "rtrim"; "ltrim"; "repeat"; "repeat_sep"; "repeatSep"; "replace";
   "remove"; "count"; "is_empty"; "isEmpty"; "typeof"; "type_of"].

(** The methods taking one string argument. *)
Definition string_arg_methods : list string :=
  ["contains"; "starts_with"; "startsWith"; "ends_with"; "endsWith"; "find";
   "remove"; "count"].

(** The methods that take no argument. *)
Definition no_arg_methods : list string :=
  ["reverse"; "upper"; "lower"; "length"; "len"; "capitalize"; "cap";
   "trim"; "rtrim"; "ltrim"; "is_empty"; "isEmpty"; "typeof"; "type_of"].

(** The methods taking a pair [(a, b)]. *)
Definition pair_arg_methods : list string := ["repeat_sep"; "repeatSep"; "replace"].

(** An argument that is a string literal with non-empty text. *)
Definition nonempty_literal (arg : option Expression) : bool :=
  match arg with
  | Some (EString t) => negb (String.eqb t "")
  | _ => false
  end.

(** An argument of the shape [(a, b)]. *)
Definition pair_arg (arg : option Expression) : bool :=
  match arg with
  | Some (Tuple [_; _]) => true
  | _ => false
  end.

(** The escapes of a string literal: [\n], [\t], [\r], [\\] and the
    escaped quote. *)
Definition spec_escape (c : ascii) : option ascii :=
  match c with
  | "n"%char => Some Lexer.LF
  | "t"%char => Some Lexer.TAB
  | "r"%char => Some Lexer.CR
  | "\"%char => Some "\"%char
  | _ => if Ascii.eqb c Lexer.QUOTE then Some Lexer.QUOTE else None
  end.

(** The text of a [${ ... }] interpolation after its [{]: the characters
    up to the [}] that balances it, copied as they are, and the text after
    that [}]; [None] when no [}] balances it. *)
Fixpoint brace_span (depth : nat) (cs : string) : option (string * string) :=
  match cs with
  | EmptyString => None
  | String c r =>
      if Ascii.eqb c "}" && (depth =? 1)%nat then Some (EmptyString, r)
      else
        let depth' := if Ascii.eqb c "{" then S depth
                      else if Ascii.eqb c "}" then pred depth else depth in
        match brace_span depth' r with
        | Some (raw, rest) => Some (String c raw, rest)
        | None => None
        end
  end.

(** The name of a [$name] interpolation: the identifier characters after
    the [$]. *)
Fixpoint ident_span (cs : string) : string * string :=
  match cs with
  | String c r =>
      if Template.is_ident_char c then
        let (name, rest) := ident_span r in (String c name, rest)
      else (EmptyString, cs)
  | EmptyString => (EmptyString, EmptyString)
  end.

(** The method calls after [$name]: while the next character is [.], that
    character and the characters through the next [)], copied as they are
    (to the end of the text when no [)] follows).  [inside] is true between
    a [.] and its [)]. *)
Fixpoint chain_span (inside : bool) (cs : string) : string * string :=
  match cs with
  | EmptyString => (EmptyString, EmptyString)
  | String c r =>
      if inside then
        let (calls, rest) := chain_span (negb (Ascii.eqb c ")")) r in (String c calls, rest)
      else if Ascii.eqb c "." then
        let (calls, rest) := chain_span true r in (String c calls, rest)
      else (EmptyString, cs)
  end.

(** The reading of a string literal's body (the text after its opening
    quote): its text and what follows the closing quote, or the error. *)
Inductive Decoded : Type :=
| DOk (text rest : string)
| DUnterminated
| DInvalid (c : ascii).

Definition dcons (c : ascii) (d : Decoded) : Decoded :=
  match d with
  | DOk t rest => DOk (String c t) rest
  | _ => d
  end.

Definition dapp (p : string) (d : Decoded) : Decoded :=
  match d with
  | DOk t rest => DOk (p ++ t) rest
  | _ => d
  end.

(** Outside interpolations the escapes are decoded; a raw newline or the
    end of the text ends the literal unterminated.  The text of a [${...}]
    interpolation is copied without decoding as the marker [{{${...}}],
    that of a [$name.method(...)] one as [{{$name.method(...)}}].  Each
    round reads at least one character, so [n = length cs + 1] rounds
    suffice. *)
Fixpoint decode_literal_n (n : nat) (cs : string) : Decoded :=
  match n with
  | O => DUnterminated
  | S n' =>
      match cs with
      | EmptyString => DUnterminated
      | String c r =>
          if Ascii.eqb c Lexer.QUOTE then DOk EmptyString r
          else if Ascii.eqb c Lexer.LF then DUnterminated
          else if Ascii.eqb c "\" then
            match r with
            | EmptyString => DUnterminated
            | String e r' =>
                match spec_escape e with
                | Some d => dcons d (decode_literal_n n' r')
                | None => DInvalid e
                end
            end
          else if Ascii.eqb c "$" then
            match r with
            | String "{" r' =>
                match brace_span 1 r' with
                | Some (raw, rest) => dapp ("{{${" ++ raw ++ "}}") (decode_literal_n n' rest)
                | None => DUnterminated
                end
            | _ =>
                let (name, r1) := ident_span r in
                let (calls, r2) := chain_span false r1 in
                dapp ("{{$" ++ name ++ calls ++ "}}") (decode_literal_n n' r2)
            end
          else dcons c (decode_literal_n n' r)
      end
  end.

Definition decode_literal (cs : string) : Decoded :=
  decode_literal_n (S (String.length cs)) cs.

(** The literal of the spec: a quote, the escapes of LF, TAB, backslash
    and quote between the letters a, b, c, d, and the closing quote. *)
Definition escapes_literal : string :=
  Lexer.chr Lexer.QUOTE ++ "a\nb\tc\\\" ++ Lexer.chr Lexer.QUOTE ++ "d" ++
  Lexer.chr Lexer.QUOTE.

(** The literal [${\q}] with its quotes. *)
Definition braces_literal : string :=
  Lexer.chr Lexer.QUOTE ++ "${\q}" ++ Lexer.chr Lexer.QUOTE.

(** A context with [x] bound to [5]. *)
Definition ctx_x : Ctx :=
  {| message := Some "hi"; client := None; vars := <["x" := "5"]> ∅ |}.

(** A case mapping for the examples, which only change ASCII letters:
    [char::to_uppercase] and [str::to_lowercase] restricted to ASCII. *)
Definition ascii_case : Str.CaseMapping := {|
  Str.char_to_uppercase c :=
    String (if Str.is_lower c then ascii_of_nat (Str.code c - 32) else c) EmptyString;
  Str.str_to_lowercase := Str.map Str.to_ascii_lowercase
|}.

(** The statements [trigger_event] runs for [event_name]: the bodies of
    the matching [On] handlers, in order. *)
Definition handler_bodies (events : list Statement) (event_name : string)
  : list Statement :=
  flat_map (fun stmt => match stmt with
                        | On event body => if String.eqb event event_name then body else []
                        | _ => []
                        end) events.

(** Every character of [s] satisfies [p]. *)
Fixpoint all_chars (p : ascii -> bool) (s : string) : bool :=
  match s with
  | EmptyString => true
  | String c r => p c && all_chars p r
  end.

(** The characters other than [d]. *)
Definition not_char (d : ascii) (c : ascii) : bool := negb (Ascii.eqb c d).

(** The text after the longest prefix whose characters satisfy [p]. *)
Fixpoint drop_while (p : ascii -> bool) (s : string) : string :=
  match s with
  | String c r => if p c then drop_while p r else s
  | EmptyString => EmptyString
  end.

(** A text that [parse::<f64>] reads as NaN. *)
Definition is_nan (v : string) : bool :=
  match Num.parse_f64 v with Some Num.FNaN => true | _ => false end.

(** The tokens of [x0 sep x1 sep ... sep xn] with string literal operands. *)
Definition chain_tokens (sep : Token.Token) (x0 : string) (xs : list string)
  : list Token.Token :=
  Token.TString x0 :: flat_map (fun x => [sep; Token.TString x]) xs.

(** The token after an operand neither continues it (a [.] method call or
    a comparison operator) nor is one of [stops]. *)
Definition ends_operand (stops : list Token.Token) (t : option Token.Token) : Prop :=
  forall t', t = Some t' -> t' <> Token.Dot /\ Parser.comparison_op t' = None /\
                            ~ In t' stops.

(** The tokens of a method call's argument list [x1, ..., xn]. *)
Definition args_tokens (xs : list string) : list Token.Token :=
  match xs with
  | [] => []
  | x :: xs' => chain_tokens Token.Comma x xs'
  end.

(** A successful lexing ends in one [EOF] token and has no other. *)
Definition eof_last (r : Lexer.LexResult) : Prop :=
  match r with
  | Lexer.LexOk ts => exists body, ts = app body [Token.EOF] /\ ~ In Token.EOF body
  | Lexer.LexErr _ => True
  end.

End Spec.

(* ================================================================== *)
(** * Properties *)

Module Props.
Import Eval Spec.

Section Generic.
Context {CM : Str.CaseMapping}.

(* ------------------------------------------------------------------ *)
(** ** Helper lemmas *)

Lemma find_cons (p : string) (c : ascii) (r : string) :
  Str.find p (String c r) =
  if String.prefix p (String c r) then Some 0%nat else option_map S (Str.find p r).
Proof. reflexivity. Qed.

Lemma find_none_of_absent (p s : string) :
  (forall i, substring i (String.length p) s <> p) -> Str.find p s = None.
Proof.
  revert p. induction s as [|c r IH]; intros p Habs.
  - destruct p as [|c' p'].
    + exfalso. apply (Habs 0%nat). reflexivity.
    + reflexivity.
  - rewrite find_cons.
    destruct (String.prefix p (String c r)) eqn:Hpre.
    + exfalso. apply (Habs 0%nat). apply prefix_correct. exact Hpre.
    + rewrite (IH p); [reflexivity|].
      intros i Hi. apply (Habs (S i)).
      destruct p as [|c' p'].
      * simpl in Hpre. discriminate.
      * simpl. exact Hi.
Qed.

Lemma bind_ret {A B} (a : A) (k : A -> Eval B) : bind (ret a) k = k a.
Proof.
  unfold bind, ret. simpl. destruct (k a) as [[b w]|]; reflexivity.
Qed.

Lemma bind_some {A B} (a : A) (w : list Diagnostic) (k : A -> Eval B) :
  bind (Some (a, w)) k =
  match k a with Some (b, w') => Some (b, app w w') | None => None end.
Proof. reflexivity. Qed.

Lemma app_nil_r_diag (w : list Diagnostic) : app w [] = w.
Proof. apply app_nil_r. Qed.

Lemma sappend_cons (x : ascii) (a b : string) : String x a ++ b = String x (a ++ b).
Proof. reflexivity. Qed.

Lemma sappend_nil_l (a : string) : "" ++ a = a.
Proof. reflexivity. Qed.

Lemma sappend_assoc (a b c : string) : a ++ b ++ c = (a ++ b) ++ c.
Proof.
  induction a as [|x a IH]; [reflexivity|].
  rewrite !sappend_cons. f_equal. exact IH.
Qed.

Lemma sappend_nil_r (a : string) : a ++ "" = a.
Proof. induction a as [|x a IH]; [reflexivity|rewrite sappend_cons; f_equal; exact IH]. Qed.

Lemma prefix_suffix (n : nat) (s : string) :
  Template.prefix_upto n s ++ Template.suffix_from n s = s.
Proof.
  unfold Template.prefix_upto, Template.suffix_from.
  revert n. induction s as [|c r IH]; intros n.
  - destruct n; reflexivity.
  - destruct n as [|n']; simpl.
    + rewrite sappend_nil_l. f_equal.
      clear IH. induction r as [|c' r' IHr]; simpl; [reflexivity|now rewrite IHr].
    + rewrite sappend_cons. f_equal. apply IH.
Qed.

(** The template loop on a text whose first [{{] has no [}}] after it. *)
Lemma template_loop_unterminated (em : string -> Eval string) (fuel : nat)
  (result remaining : string) (start : nat) :
  Str.find "{{" remaining = Some start ->
  Str.find "}}" (Template.suffix_from start remaining) = None ->
  template_loop em (S fuel) result remaining =
  Some (result ++ remaining ++ remaining, []).
Proof.
  intros Hs He. simpl. rewrite Hs, He.
  rewrite <- (sappend_assoc result (Template.prefix_upto start remaining)).
  rewrite prefix_suffix, <- sappend_assoc. reflexivity.
Qed.

(* ------------------------------------------------------------------ *)
(** ** C1: the [If] statement *)

(** C1 (code_bug).  [execute_statements] never looks at the [else_ifs] of
    an [If]: running [if false {send("A")} else if true {send("B")} else
    {send("C")}] writes ["C"] and never ["B"], whatever the socket does
    with the write. *)
Theorem if_else_if_runs_else_body (sock : Runtime.Socket) :
  Runtime.exec_statements sock None (Some "4242")
    [If (EString "false") [Send (EString "A")]
        [(EString "true", [Send (EString "B")])]
        (Some [Send (EString "C")])] st0 =
  Some (match sock [] with
        | Runtime.WriteOk =>
            Runtime.Done {| Runtime.rt_vars := ∅;
                            Runtime.rt_out := [Runtime.OWrite ("C" ++ Lexer.chr Lexer.LF);
                                               Runtime.OSent "C"] |}
        | Runtime.WriteAllErr => Runtime.Failed st0
        | Runtime.FlushErr =>
            Runtime.Failed {| Runtime.rt_vars := ∅;
                              Runtime.rt_out := [Runtime.OWrite ("C" ++ Lexer.chr Lexer.LF)] |}
        end).
Proof. vm_compute. destruct (sock []); reflexivity. Qed.

(* ------------------------------------------------------------------ *)
(** ** C2: an unterminated marker *)

(** C2 (code_bug).  When the first [{{] of a literal has no [}}] after it,
    [eval_template] breaks out of its loop after pushing the rest of the
    text and then pushes [remaining] again: the whole literal comes out
    twice instead of once. *)
Theorem eval_template_unterminated_twice (ctx : Ctx) (s : string) (start : nat) :
  Str.find "{{" s = Some start ->
  Str.find "}}" (Template.suffix_from start s) = None ->
  eval_template ctx s = Some (s ++ s, []).
Proof.
  intros Hs He. unfold eval_template. cbn [eval_template_n].
  rewrite (template_loop_unterminated _ _ "" s start Hs He). reflexivity.
Qed.

(* ------------------------------------------------------------------ *)
(** ** C3: [LogicalOp] *)

(** C3 (code_bug).  [eval_expression] has no arm for [LogicalOp]: no
    logical expression evaluates to a text. *)
Theorem logical_op_has_no_result (ctx : Ctx) (l : Expression)
  (op : LogicalOperator) (r : Expression) :
  eval_expression ctx (LogicalOp l op r) = None.
Proof. reflexivity. Qed.

(* ------------------------------------------------------------------ *)
(** ** C9: literal text passes through the template engine *)

(** C9 (confirmed).  A text with no [{{] in it is returned unchanged by
    template evaluation, whatever the message, client and variables. *)
Theorem eval_template_no_marker (ctx : Ctx) (s : string) :
  (forall i, substring i 2 s <> "{{") -> eval_template ctx s = Some (s, []).
Proof.
  intros Habs. unfold eval_template. cbn [eval_template_n template_loop].
  rewrite (find_none_of_absent "{{" s Habs). reflexivity.
Qed.

(* ------------------------------------------------------------------ *)
(** ** More helper lemmas *)

Lemma eval_method_call (ctx : Ctx) (obj : Expression) (method : string)
  (arg : option Expression) (base : string) (w : list Diagnostic) :
  eval_expression ctx obj = Some (base, w) ->
  eval_expression ctx (MethodCall obj method arg) =
  match apply_method (eval_expression ctx) base method arg with
  | Some (v, w') => Some (v, app w w')
  | None => None
  end.
Proof.
  intros H. unfold eval_expression in *. cbn [eval_expr_with].
  rewrite H. reflexivity.
Qed.

Lemma is_method_in (names : list string) (m : string) :
  is_method names m = true -> In m names.
Proof.
  unfold is_method. intros H. apply existsb_exists in H.
  destruct H as [x [Hx Heq]]. apply String.eqb_eq in Heq. subst. exact Hx.
Qed.

Lemma with_string_arg_fail (label : string) (arg : option Expression)
  (base : string) (f : string -> string) :
  nonempty_literal arg = false ->
  exists d, with_string_arg label arg base f = Some (base, [d]).
Proof.
  unfold nonempty_literal, with_string_arg.
  destruct arg as [e|]; [|intros _; eexists; reflexivity].
  destruct e; intros H; try (eexists; reflexivity).
  rewrite H. eexists. reflexivity.
Qed.

Lemma with_string_arg_ok (label : string) (arg : option Expression)
  (base : string) (f : string -> string) :
  nonempty_literal arg = true ->
  exists v, with_string_arg label arg base f = Some (v, []).
Proof.
  unfold nonempty_literal, with_string_arg.
  destruct arg as [e|]; [|discriminate].
  destruct e; try discriminate. intros H. rewrite H. eexists. reflexivity.
Qed.

Lemma apply_method_string_arg (ev : Expression -> Eval string)
  (base method : string) (arg : option Expression) :
  In method string_arg_methods ->
  exists label f, apply_method ev base method arg = with_string_arg label arg base f.
Proof.
  unfold string_arg_methods.
  intros Hin; repeat (destruct Hin as [<-|Hin]; [eexists _, _; reflexivity|]);
  destruct Hin.
Qed.

Lemma apply_method_pair_arg (ev : Expression -> Eval string)
  (base method : string) (arg : option Expression) :
  In method pair_arg_methods -> pair_arg arg = false ->
  exists d, apply_method ev base method arg = Some (base, [d]).
Proof.
  unfold pair_arg_methods, pair_arg.
  intros Hin Harg.
  destruct arg as [e|].
  - assert (Hs : match e with Tuple [_; _] => False | _ => True end).
    { destruct e as [| | | |items| | | |]; try exact I.
      destruct items as [|a [|b [|c r]]]; try exact I; discriminate. }
    repeat (destruct Hin as [<-|Hin];
            [ destruct e as [| | | |items| | | |]; try (eexists; reflexivity);
              destruct items as [|a [|b [|c r]]];
              solve [eexists; reflexivity | destruct Hs] |]);
    destruct Hin.
  - repeat (destruct Hin as [<-|Hin]; [eexists; reflexivity|]); destruct Hin.
Qed.

Lemma apply_method_unknown (ev : Expression -> Eval string)
  (base method : string) (arg : option Expression) :
  ~ In method library_methods ->
  apply_method ev base method arg = Some (base, [WUnknownMethod method]).
Proof.
  intros Hnot. unfold apply_method.
  repeat (let E := fresh "E" in
          match goal with
          | |- context [is_method ?names method] => destruct (is_method names method) eqn:E
          end;
          [exfalso; apply Hnot; apply is_method_in in E; unfold library_methods;
           simpl in E |- *; tauto|]).
  reflexivity.
Qed.

Lemma apply_method_no_arg (ev : Expression -> Eval string)
  (base method : string) :
  In method no_arg_methods ->
  exists v, forall arg, apply_method ev base method arg = Some (v, []).
Proof.
  unfold no_arg_methods. intros Hin.
  repeat (destruct Hin as [<-|Hin]; [eexists; intros arg; reflexivity|]).
  destruct Hin.
Qed.

Lemma apply_method_repeat_other (ev : Expression -> Eval string)
  (base : string) (arg : option Expression) :
  (forall n, arg <> Some (Number n)) ->
  (Z.of_nat (String.length base) * 2 <= 2 ^ 63 - 1)%Z ->
  apply_method ev base "repeat" arg = Some (base ++ base, []).
Proof.
  intros Hn Hlen.
  assert (E : apply_method ev base "repeat" arg = repeat_str 2 base).
  { destruct arg as [[]|]; try reflexivity.
    exfalso. eapply Hn. reflexivity. }
  rewrite E. unfold repeat_str.
  replace (2 ^ 63 - 1 <? 2 * Z.of_nat (String.length base))%Z with false
    by (symmetry; apply Z.ltb_ge; lia).
  rewrite andb_false_r. cbn [negb andb]. change (Z.to_nat 2) with 2%nat.
  unfold ret. cbn [Str.repeat]. rewrite sappend_nil_r. reflexivity.
Qed.

Lemma negb_Qle_bool_compare (x y : Q) :
  negb (Qle_bool y x) = match Qcompare x y with Lt => true | _ => false end.
Proof.
  destruct (Qcompare_spec x y) as [H|H|H].
  - assert (Hle : (y <= x)%Q) by (rewrite H; apply Qle_refl).
    apply Qle_bool_iff in Hle. rewrite Hle. reflexivity.
  - destruct (Qle_bool y x) eqn:E; [|reflexivity].
    apply Qle_bool_iff in E. exfalso. apply (Qlt_not_le x y H E).
  - assert (Hle : (y <= x)%Q) by (apply Qlt_le_weak; exact H).
    apply Qle_bool_iff in Hle. rewrite Hle. reflexivity.
Qed.

Lemma Qeq_bool_compare (x y : Q) :
  Qeq_bool x y = match Qcompare x y with Eq => true | _ => false end.
Proof.
  destruct (Qcompare_spec x y) as [H|H|H].
  - apply Qeq_bool_iff. exact H.
  - destruct (Qeq_bool x y) eqn:E; [|reflexivity].
    apply Qeq_bool_iff in E. rewrite E in H. exfalso. apply (Qlt_irrefl y H).
  - destruct (Qeq_bool x y) eqn:E; [|reflexivity].
    apply Qeq_bool_iff in E. rewrite E in H. exfalso. apply (Qlt_irrefl y H).
Qed.

Lemma Qcompare_swap (x y : Q) : Qcompare y x = CompOpp (Qcompare x y).
Proof. symmetry. apply Qcompare_antisym. Qed.

Lemma compare_values_finite (op : BinaryOperator) (lv rv : string) (x y : Q) :
  Num.parse_f64 lv = Some (Num.FFinite x) ->
  Num.parse_f64 rv = Some (Num.FFinite y) ->
  compare_values op lv rv = numeric_compare op x y.
Proof.
  intros Hx Hy. unfold compare_values. rewrite Hx, Hy.
  unfold Num.f64_le, Num.f64_lt, Num.f64_eq.
  rewrite !negb_Qle_bool_compare, !Qeq_bool_compare, (Qcompare_swap x y).
  destruct op; simpl; destruct (Qcompare x y); reflexivity.
Qed.

Lemma compare_values_f64 (op : BinaryOperator) (lv rv : string) (x y : Num.F64) :
  Num.parse_f64 lv = Some x -> Num.parse_f64 rv = Some y ->
  compare_values op lv rv = ieee_compare op x y.
Proof.
  intros Hx Hy. unfold compare_values. rewrite Hx, Hy.
  unfold Num.f64_le, Num.f64_lt, Num.f64_eq, ieee_compare, ieee_order.
  destruct x as [qx|nx|], y as [qy|ny|];
    [rewrite !negb_Qle_bool_compare, !Qeq_bool_compare, (Qcompare_swap qx qy);
     destruct op; simpl; destruct (Qcompare qx qy); reflexivity|..];
    try destruct nx; try destruct ny; destruct op; reflexivity.
Qed.

Lemma compare_values_text (op : BinaryOperator) (lv rv : string) :
  Num.parse_f64 lv = None \/ Num.parse_f64 rv = None ->
  compare_values op lv rv = text_compare op lv rv.
Proof.
  intros H. unfold compare_values.
  destruct H as [H|H]; rewrite H;
  [|destruct (Num.parse_f64 lv)]; destruct op; reflexivity.
Qed.

Lemma decode_escape_spec (c : ascii) : Lexer.decode_escape c = spec_escape c.
Proof. destruct c as [[] [] [] [] [] [] [] []]; reflexivity. Qed.

Lemma sappend_chr (s : string) (c : ascii) (t : string) :
  (s ++ Lexer.chr c) ++ t = s ++ String c t.
Proof. rewrite <- sappend_assoc. reflexivity. Qed.

(** What [scan_string] returns, against the reading [decode_literal_n]. *)
Definition scan_agrees (line sc : nat) (s : string) (sr : Lexer.ScanResult)
  (d : Decoded) : Prop :=
  match d with
  | DOk t rest => exists col, sr = Lexer.ScanOk (s ++ t) rest col
  | DUnterminated => sr = Lexer.ScanErr (Lexer.UnterminatedString line sc)
  | DInvalid c => exists col, sr = Lexer.ScanErr (Lexer.InvalidEscape line col c)
  end.

Lemma scan_agrees_dcons (line sc : nat) (s : string) (c : ascii)
  (sr : Lexer.ScanResult) (d : Decoded) :
  scan_agrees line sc (s ++ Lexer.chr c) sr d ->
  scan_agrees line sc s sr (dcons c d).
Proof.
  destruct d as [t rest| |e]; simpl; try tauto.
  intros [col H]. exists col. rewrite H, sappend_chr. reflexivity.
Qed.

Lemma scan_agrees_dapp (line sc : nat) (s p : string)
  (sr : Lexer.ScanResult) (d : Decoded) :
  scan_agrees line sc (s ++ p) sr d ->
  scan_agrees line sc s sr (dapp p d).
Proof.
  destruct d as [t rest| |e]; simpl; try tauto.
  intros [col H]. exists col. rewrite H, sappend_assoc. reflexivity.
Qed.

Lemma scan_braces_span (depth : nat) (cs s : string) (column : nat) :
  match brace_span depth cs with
  | Some (raw, rest) =>
      exists col, Lexer.scan_braces depth cs s column = (s ++ raw ++ "}}", rest, col)
  | None => exists col, Lexer.scan_braces depth cs s column = (s ++ cs, EmptyString, col)
  end.
Proof.
  revert depth s column.
  induction cs as [|c r IH]; intros depth s column.
  - exists column. rewrite sappend_nil_r. reflexivity.
  - cbn [brace_span Lexer.scan_braces].
    destruct (Ascii.eqb c "{") eqn:E1.
    + apply Ascii.eqb_eq in E1. subst c. cbn [Ascii.eqb andb].
      specialize (IH (S depth) (s ++ Lexer.chr "{") (S column)).
      destruct (brace_span (S depth) r) as [[raw rest]|];
        destruct IH as [col IH]; exists col; rewrite IH, sappend_chr; reflexivity.
    + destruct (Ascii.eqb c "}") eqn:E2.
      * apply Ascii.eqb_eq in E2. subst c. cbn [andb].
        destruct (depth =? 1)%nat eqn:E3.
        -- exists (S column). reflexivity.
        -- replace (depth - 1)%nat with (pred depth) by lia.
           specialize (IH (pred depth) (s ++ Lexer.chr "}") (S column)).
           destruct (brace_span (pred depth) r) as [[raw rest]|];
             destruct IH as [col IH]; exists col; rewrite IH, sappend_chr; reflexivity.
      * cbn [andb].
        specialize (IH depth (s ++ Lexer.chr c) (S column)).
        destruct (brace_span depth r) as [[raw rest]|];
          destruct IH as [col IH]; exists col; rewrite IH, sappend_chr; reflexivity.
Qed.

Lemma read_ident_span (cs : string) (column : nat) :
  let (name, rest) := ident_span cs in
  exists col, Lexer.read_ident cs column = (name, rest, col).
Proof.
  revert column. induction cs as [|c r IH]; intros column.
  - exists column. reflexivity.
  - cbn [ident_span Lexer.read_ident].
    destruct (Template.is_ident_char c).
    + specialize (IH (S column)). destruct (ident_span r) as [name rest].
      destruct IH as [col ->]. exists col. reflexivity.
    + exists column. reflexivity.
Qed.

Lemma read_method_chain_span (inside : bool) (cs s : string) (column : nat) :
  let (calls, rest) := chain_span inside cs in
  exists col, Lexer.read_method_chain inside cs s column = (s ++ calls, rest, col).
Proof.
  revert inside s column. induction cs as [|c r IH]; intros inside s column.
  - exists column. rewrite sappend_nil_r. reflexivity.
  - cbn [chain_span Lexer.read_method_chain].
    destruct inside.
    + specialize (IH (negb (Ascii.eqb c ")")) (s ++ Lexer.chr c) (S column)).
      destruct (chain_span (negb (Ascii.eqb c ")")) r) as [calls rest].
      destruct IH as [col ->]. exists col. rewrite sappend_chr. reflexivity.
    + destruct (Ascii.eqb c ".").
      * specialize (IH true (s ++ Lexer.chr c) (S column)).
        destruct (chain_span true r) as [calls rest].
        destruct IH as [col ->]. exists col. rewrite sappend_chr. reflexivity.
      * exists column. rewrite sappend_nil_r. reflexivity.
Qed.

(** Both readings branch on a [{] after the [$] the same way. *)
Lemma match_lbrace_cases {A B} (P : A -> B -> Prop) (r : string)
  (x : string -> A) (y : A) (x' : string -> B) (y' : B) :
  (forall r', r = String "{" r' -> P (x r') (x' r')) -> P y y' ->
  P (match r with String "{" r' => x r' | _ => y end)
    (match r with String "{" r' => x' r' | _ => y' end).
Proof.
  intros H1 H2. destruct r as [|a r']; [exact H2|].
  destruct a as [[] [] [] [] [] [] [] []]; try exact H2.
  apply H1. reflexivity.
Qed.

Lemma scan_string_decode (fuel line sc : nat) (cs s : string) (column : nat) :
  scan_agrees line sc s (Lexer.scan_string fuel line sc cs s column)
    (decode_literal_n fuel cs).
Proof.
  revert cs s column.
  induction fuel as [|fuel IH]; intros cs s column; [reflexivity|].
  destruct cs as [|ch r]; [reflexivity|].
  cbn [Lexer.scan_string decode_literal_n].
  destruct (Ascii.eqb ch Lexer.QUOTE).
  { exists (S column). rewrite sappend_nil_r. reflexivity. }
  destruct (Ascii.eqb ch Lexer.LF); [reflexivity|].
  destruct (Ascii.eqb ch "\").
  - destruct r as [|e r']; [reflexivity|].
    rewrite decode_escape_spec.
    destruct (spec_escape e) as [d|].
    + apply scan_agrees_dcons. apply IH.
    + eexists. reflexivity.
  - destruct (Ascii.eqb ch "$").
    + apply (match_lbrace_cases (scan_agrees line sc s)).
      * intros r' _.
        pose proof (scan_braces_span 1 r' (s ++ "{{$" ++ "{") (S (S column))) as Hb.
        destruct (brace_span 1 r') as [[raw rest]|].
        -- destruct Hb as [col ->]. apply scan_agrees_dapp.
           replace ((s ++ "{{$" ++ "{") ++ raw ++ "}}")
             with (s ++ "{{${" ++ raw ++ "}}")
             by (rewrite <- sappend_assoc; reflexivity).
           apply IH.
        -- destruct Hb as [col ->]. destruct fuel; reflexivity.
      * pose proof (read_ident_span r (S column)) as Hi.
        destruct (ident_span r) as [name r1]. destruct Hi as [col1 ->].
        pose proof (read_method_chain_span false r1 ("$" ++ name) col1) as Hc.
        destruct (chain_span false r1) as [calls r2]. destruct Hc as [col2 ->].
        apply scan_agrees_dapp.
        replace (s ++ "{{" ++ (("$" ++ name) ++ calls) ++ "}}")
          with (s ++ "{{$" ++ name ++ calls ++ "}}")
          by (rewrite <- !sappend_assoc; reflexivity).
        apply IH.
    + apply scan_agrees_dcons. apply IH.
Qed.

Lemma lex_loop_quote (fuel : nat) (cs : string) (line column : nat)
  (tokens : list Token.Token) :
  Lexer.lex_loop (S fuel) (String Lexer.QUOTE cs) line column tokens =
  match Lexer.scan_string (S (String.length cs)) line column cs "" (S column) with
  | Lexer.ScanOk s rest col => Lexer.lex_loop fuel rest line col (tokens ++ [Token.TString s])
  | Lexer.ScanErr e => Lexer.LexErr e
  end.
Proof. reflexivity. Qed.

Lemma lex_quote (cs : string) :
  Lexer.lex (String Lexer.QUOTE cs) =
  match Lexer.scan_string (S (String.length cs)) 1 1 cs "" 2 with
  | Lexer.ScanOk s rest col => Lexer.lex_loop (S (String.length cs)) rest 1 col [Token.TString s]
  | Lexer.ScanErr e => Lexer.LexErr e
  end.
Proof. reflexivity. Qed.

(* ------------------------------------------------------------------ *)
(** ** C4: positions of lexical errors *)

(** C4 (code_bug).  The arms of [lex] for single punctuation ([{ } ( ) :
    . , + - * %]) push their token without advancing [column], so an error
    after such characters is reported one column to the left per
    punctuation character: in the text [{#] the character [#] is at line 1,
    column 2 but is reported at column 1, and in [log_unterminated] the
    opening quote is at line 1, column 5 but the unterminated string is
    reported at column 4. *)
Theorem lex_error_column_after_punctuation :
  Lexer.lex "{#" = Lexer.LexErr (Lexer.UnexpectedCharacter 1 1 "#") /\
  actual_position "{#" 1 = (1%nat, 2%nat) /\
  Lexer.lex log_unterminated = Lexer.LexErr (Lexer.UnterminatedString 1 4) /\
  actual_position log_unterminated 4 = (1%nat, 5%nat).
Proof. vm_compute. repeat split. Qed.

(* ------------------------------------------------------------------ *)
(** ** C5: comparisons *)

(** C5 (confirmed).  A [BinaryOp] evaluates both operands (their warnings
    kept in order); when both texts parse as [f64] values (finite, infinite
    or NaN) the operator compares the numbers as IEEE 754 does, in
    particular two finite values by their rational values; when either
    does not parse it compares the texts (equality, lexicographic order).
    In particular [10 > 9] on the literals is true, [abc > abd] is false,
    [inf > 1] is true and [NaN == NaN] is false. *)
Theorem binary_op_comparison (ctx : Ctx) (lhs rhs : Expression)
  (op : BinaryOperator) (lv rv : string) (wl wr : list Diagnostic) :
  eval_expression ctx lhs = Some (lv, wl) ->
  eval_expression ctx rhs = Some (rv, wr) ->
  (forall x y, Num.parse_f64 lv = Some x -> Num.parse_f64 rv = Some y ->
     eval_expression ctx (BinaryOp lhs op rhs) =
     Some (Str.of_bool (ieee_compare op x y), app wl wr)) /\
  (forall x y, Num.parse_f64 lv = Some (Num.FFinite x) ->
     Num.parse_f64 rv = Some (Num.FFinite y) ->
     eval_expression ctx (BinaryOp lhs op rhs) =
     Some (Str.of_bool (numeric_compare op x y), app wl wr)) /\
  (Num.parse_f64 lv = None \/ Num.parse_f64 rv = None ->
     eval_expression ctx (BinaryOp lhs op rhs) =
     Some (Str.of_bool (text_compare op lv rv), app wl wr)) /\
  eval_expression ctx (BinaryOp (EString "10") GreaterThan (EString "9")) =
    Some ("true", []) /\
  eval_expression ctx (BinaryOp (EString "abc") GreaterThan (EString "abd")) =
    Some ("false", []) /\
  eval_expression ctx (BinaryOp (EString "inf") GreaterThan (EString "1")) =
    Some ("true", []) /\
  eval_expression ctx (BinaryOp (EString "NaN") Equal (EString "NaN")) =
    Some ("false", []).
Proof.
  intros Hl Hr.
  assert (Hev : eval_expression ctx (BinaryOp lhs op rhs) =
                Some (Str.of_bool (compare_values op lv rv), app wl wr)).
  { unfold eval_expression in *. cbn [eval_expr_with].
    rewrite Hl, Hr. unfold bind, ret. rewrite app_nil_r_diag. reflexivity. }
  split; [|split; [|split; [|split; [|split; [|split]]]]].
  - intros x y Hx Hy. rewrite Hev, (compare_values_f64 op lv rv x y Hx Hy).
    reflexivity.
  - intros x y Hx Hy. rewrite Hev, (compare_values_finite op lv rv x y Hx Hy).
    reflexivity.
  - intros H. rewrite Hev, (compare_values_text op lv rv H). reflexivity.
  - vm_compute. reflexivity.
  - vm_compute. reflexivity.
  - vm_compute. reflexivity.
  - vm_compute. reflexivity.
Qed.

(* ------------------------------------------------------------------ *)
(** ** C6: variables *)

(** C6 (confirmed).  [message] and [client] resolve to the context's
    values (empty when absent) whatever the variables hold; any other name
    resolves to its binding, or to the text [$name] when unbound, without
    a warning. *)
Theorem variable_resolution (ctx : Ctx) :
  eval_expression ctx (EVariable "message") = Some (default "" (message ctx), []) /\
  eval_expression ctx (EVariable "client") = Some (default "" (client ctx), []) /\
  (forall name v, name <> "message" -> name <> "client" ->
     vars ctx !! name = Some v ->
     eval_expression ctx (EVariable name) = Some (v, [])) /\
  (forall name, name <> "message" -> name <> "client" ->
     vars ctx !! name = None ->
     eval_expression ctx (EVariable name) = Some ("$" ++ name, [])).
Proof.
  split; [reflexivity|]. split; [reflexivity|]. split.
  - intros name v Hm Hc Hv. unfold eval_expression. simpl.
    apply String.eqb_neq in Hm, Hc. rewrite Hm, Hc, Hv. reflexivity.
  - intros name Hm Hc Hv. unfold eval_expression. simpl.
    apply String.eqb_neq in Hm, Hc. rewrite Hm, Hc, Hv. reflexivity.
Qed.

(* ------------------------------------------------------------------ *)
(** ** C7: fail-soft methods *)

(** C7 (amended).  An unknown method, a one-string-argument method
    ([contains], [starts_with]/[startsWith], [ends_with]/[endsWith],
    [find], [remove], [count]) whose argument is not a non-empty string
    literal, or a pair method ([repeat_sep]/[repeatSep], [replace]) whose
    argument is not a pair, logs one diagnostic and evaluates to the base
    text; in particular [x.bogus()] evaluates to [x] with an unknown-method
    warning.  The other methods do not check their argument: [repeat] with
    anything but a number repeats the base twice and logs nothing (when
    the result's size stays below [isize::MAX]), and a method taking no
    argument gives the same value, with no diagnostic, whatever argument
    it is passed. *)
Theorem method_fail_soft (ctx : Ctx) (obj : Expression) (base : string)
  (w : list Diagnostic) (method : string) (arg : option Expression) :
  eval_expression ctx obj = Some (base, w) ->
  (~ In method library_methods ->
     eval_expression ctx (MethodCall obj method arg) =
     Some (base, app w [WUnknownMethod method])) /\
  (In method string_arg_methods -> nonempty_literal arg = false ->
     exists d, eval_expression ctx (MethodCall obj method arg) =
               Some (base, app w [d])) /\
  (In method pair_arg_methods -> pair_arg arg = false ->
     exists d, eval_expression ctx (MethodCall obj method arg) =
               Some (base, app w [d])) /\
  (method = "repeat" -> (forall n, arg <> Some (Number n)) ->
     (Z.of_nat (String.length base) * 2 <= 2 ^ 63 - 1)%Z ->
     eval_expression ctx (MethodCall obj method arg) = Some (base ++ base, w)) /\
  (In method no_arg_methods ->
     exists v, forall arg', eval_expression ctx (MethodCall obj method arg') = Some (v, w)) /\
  eval_expression ctx (MethodCall (EString "x") "bogus" None) =
    Some ("x", [WUnknownMethod "bogus"]).
Proof.
  intros Hobj. split; [|split; [|split; [|split; [|split]]]].
  - intros Hnot. rewrite (eval_method_call ctx obj method arg base w Hobj).
    rewrite (apply_method_unknown _ base method arg Hnot). reflexivity.
  - intros Hin Harg. rewrite (eval_method_call ctx obj method arg base w Hobj).
    destruct (apply_method_string_arg (eval_expression ctx) base method arg Hin)
      as [label [f ->]].
    destruct (with_string_arg_fail label arg base f Harg) as [d ->].
    exists d. reflexivity.
  - intros Hin Harg. rewrite (eval_method_call ctx obj method arg base w Hobj).
    destruct (apply_method_pair_arg (eval_expression ctx) base method arg Hin Harg)
      as [d ->].
    exists d. reflexivity.
  - intros -> Hn Hlen. rewrite (eval_method_call ctx obj "repeat" arg base w Hobj).
    rewrite (apply_method_repeat_other _ base arg Hn Hlen), app_nil_r_diag.
    reflexivity.
  - intros Hin.
    destruct (apply_method_no_arg (eval_expression ctx) base method Hin) as [v Hv].
    exists v. intros arg'. rewrite (eval_method_call ctx obj method arg' base w Hobj).
    rewrite Hv, app_nil_r_diag. reflexivity.
  - vm_compute. reflexivity.
Qed.

(* ------------------------------------------------------------------ *)
(** ** C8: string literals *)

(** C8 (counterexample).  The text of a [${...}] span inside a string
    literal is copied without decoding escapes: the literal [${\q}] lexes
    to a string token, with no [InvalidEscape]. *)
Theorem escape_in_interpolation_accepted :
  Lexer.lex braces_literal = Lexer.LexOk [Token.TString "{{${\q}}"; Token.EOF].
Proof. vm_compute. reflexivity. Qed.

(** C8 (amended).  Wherever a string literal starts (any position, line,
    column and tokens before it), [lex] reads its body as [decode_literal]
    does.  Outside interpolations the escapes [\n], [\t], [\r], [\\] and
    the escaped quote decode to LF, TAB, CR, backslash and quote, and any
    other escaped character gives [InvalidEscape]; a raw newline or the end
    of the input before the closing quote gives [UnterminatedString] at the
    lexer's position of the opening quote.  The text of a [${...}] or
    [$name.method(...)] interpolation is copied without decoding.  On
    success the string token is pushed and lexing goes on after the closing
    quote.  The literal [escapes_literal] lexes to the text a, LF, b, TAB,
    c, backslash, quote, d. *)
Theorem string_literal_decoding (cs : string) (fuel line column : nat)
  (tokens : list Token.Token) :
  match decode_literal cs with
  | DOk t rest =>
      exists col, Lexer.lex_loop (S fuel) (String Lexer.QUOTE cs) line column tokens =
                  Lexer.lex_loop fuel rest line col (tokens ++ [Token.TString t])
  | DUnterminated =>
      Lexer.lex_loop (S fuel) (String Lexer.QUOTE cs) line column tokens =
      Lexer.LexErr (Lexer.UnterminatedString line column)
  | DInvalid c =>
      exists col, Lexer.lex_loop (S fuel) (String Lexer.QUOTE cs) line column tokens =
                  Lexer.LexErr (Lexer.InvalidEscape line col c)
  end /\
  Lexer.lex escapes_literal =
  Lexer.LexOk [Token.TString ("a" ++ Lexer.chr Lexer.LF ++ "b" ++ Lexer.chr Lexer.TAB ++
                              "c\" ++ Lexer.chr Lexer.QUOTE ++ "d"); Token.EOF].
Proof.
  split; [|vm_compute; reflexivity].
  pose proof (scan_string_decode (S (String.length cs)) line column cs "" (S column)) as Hs.
  rewrite lex_loop_quote. unfold decode_literal.
  destruct (decode_literal_n (S (String.length cs)) cs) as [t rest| |c];
    cbn [scan_agrees] in Hs.
  - destruct Hs as [col ->]. exists col. rewrite sappend_nil_l. reflexivity.
  - rewrite Hs. reflexivity.
  - destruct Hs as [col ->]. exists col. reflexivity.
Qed.

(* ------------------------------------------------------------------ *)
(** ** C10: methods with one string argument *)

(** C10 (confirmed).  [contains], [starts_with], [ends_with], [find],
    [remove] and [count] (with their camel-case spellings) run only on a
    string literal with non-empty text, which logs nothing; any other
    argument (empty literal, variable, number, call, pair, none) logs a
    diagnostic and gives the base text.  In particular [abc.contains] with
    the empty literal, or with the variable [x], evaluates to [abc]. *)
Theorem string_arg_method_guard (ctx : Ctx) (obj : Expression) (base : string)
  (w : list Diagnostic) (method : string) (arg : option Expression) :
  eval_expression ctx obj = Some (base, w) ->
  In method string_arg_methods ->
  (nonempty_literal arg = true ->
     exists v, eval_expression ctx (MethodCall obj method arg) = Some (v, w)) /\
  (nonempty_literal arg = false ->
     exists d, eval_expression ctx (MethodCall obj method arg) =
               Some (base, app w [d])) /\
  eval_expression ctx (MethodCall (EString "abc") "contains" (Some (EString ""))) =
    Some ("abc", [WRequires "contains" (Some (EString ""))]) /\
  eval_expression ctx (MethodCall (EString "abc") "contains" (Some (EVariable "x"))) =
    Some ("abc", [WRequires "contains" (Some (EVariable "x"))]).
Proof.
  intros Hobj Hin.
  rewrite (eval_method_call ctx obj method arg base w Hobj).
  destruct (apply_method_string_arg (eval_expression ctx) base method arg Hin)
    as [label [f ->]].
  split; [|split; [|split]].
  - intros Harg. destruct (with_string_arg_ok label arg base f Harg) as [v ->].
    exists v. rewrite app_nil_r_diag. reflexivity.
  - intros Harg. destruct (with_string_arg_fail label arg base f Harg) as [d ->].
    exists d. reflexivity.
  - vm_compute. reflexivity.
  - vm_compute. reflexivity.
Qed.

End Generic.

(* ------------------------------------------------------------------ *)
(** ** Instances of the statements with hypotheses *)

#[local] Existing Instance ascii_case.

(** C7 (counterexample).  [repeat] does not check its argument: with a
    string literal in place of a count it repeats twice and logs
    nothing, so [ab.repeat(x)] evaluates to [abab] and not to [ab].
    (Stated with [ascii_case]; [repeat] does not use the case mapping.) *)
Theorem repeat_wrong_argument_no_diagnostic :
  eval_expression ctx_x (MethodCall (EString "ab") "repeat" (Some (EString "x"))) =
  Some ("abab", []).
Proof. vm_compute. reflexivity. Qed.

Lemma eval_template_unterminated_twice_witness :
  eval_template ctx_x "a{{b" = Some ("a{{b" ++ "a{{b", []).
Proof. apply (eval_template_unterminated_twice ctx_x "a{{b" 1); reflexivity. Defined.

Lemma eval_template_no_marker_witness :
  eval_template ctx_x "hello" = Some ("hello", []).
Proof.
  apply (eval_template_no_marker ctx_x "hello").
  intros i. destruct i as [|[|[|[|[|i]]]]]; simpl; try discriminate.
  destruct i; discriminate.
Defined.

Lemma binary_op_comparison_witness :
  eval_expression ctx_x (BinaryOp (EString "inf") GreaterThan (EString "2.5")) =
  Some ("true", []).
Proof.
  destruct (binary_op_comparison ctx_x (EString "inf") (EString "2.5") GreaterThan
              "inf" "2.5" [] [] eq_refl eq_refl) as [Hnum _].
  rewrite (Hnum _ _ eq_refl eq_refl). reflexivity.
Defined.

Lemma variable_resolution_witness :
  eval_expression ctx_x (EVariable "x") = Some ("5", []).
Proof.
  destruct (variable_resolution ctx_x) as [_ [_ [Hbound _]]].
  apply Hbound; [discriminate|discriminate|reflexivity].
Defined.

Lemma method_fail_soft_witness :
  eval_expression ctx_x (MethodCall (EVariable "x") "bogus" None) =
  Some ("5", [WUnknownMethod "bogus"]).
Proof.
  destruct (method_fail_soft ctx_x (EVariable "x") "5" [] "bogus" None eq_refl)
    as [Hunknown _].
  apply Hunknown. unfold library_methods. intros H.
  repeat (destruct H as [H|H]; [discriminate H|]). exact H.
Defined.

Lemma string_arg_method_guard_witness :
  exists v, eval_expression ctx_x
              (MethodCall (EString "abc") "contains" (Some (EString "b"))) =
            Some (v, []).
Proof.
  destruct (string_arg_method_guard ctx_x (EString "abc") "abc" []
              "contains" (Some (EString "b")) eq_refl (or_introl eq_refl))
    as [Hok _].
  exact (Hok eq_refl).
Defined.

End Props.

(* ------------------------------------------------------------------ *)
(** ** Further properties of the lexer, the parser, the evaluator, the
       template engine and the runtime *)

Module Extra.
Import Eval Spec Props.

Section Generic.
Context {CM : Str.CaseMapping}.

Lemma exec_statements_app (sock : Runtime.Socket) (m c : option string)
  (a b : list Statement) (st : Runtime.RtState) :
  Runtime.exec_statements sock m c (app a b) st =
  match Runtime.exec_statements sock m c a st with
  | Some (Runtime.Done st') => Runtime.exec_statements sock m c b st'
  | r => r
  end.
Proof.
  revert st. induction a as [|s a IH]; intros st; [reflexivity|].
  cbn [app Runtime.exec_statements].
  destruct (Runtime.exec_statement sock m c s st) as [[st'|st']|];
    [apply IH|reflexivity|reflexivity].
Qed.

(** X2.  Running two statement lists one after the other is running their
    concatenation: the second list starts from the state the first one
    leaves, and a panic or a failed socket write (the [Err] of
    [execute_statements]) in the first one ends the whole run with that
    outcome. *)
Theorem exec_statements_seq (sock : Runtime.Socket) (m c : option string)
  (a b : list Statement) (st : Runtime.RtState) :
  Runtime.exec_statements sock m c (app a b) st =
  match Runtime.exec_statements sock m c a st with
  | Some (Runtime.Done st') => Runtime.exec_statements sock m c b st'
  | r => r
  end.
Proof. apply exec_statements_app. Qed.

(** With a socket whose writes all succeed, no statement ends in [Err]. *)
Lemma exec_statement_no_fail (sock : Runtime.Socket) (m c : option string)
  (Hok : forall h, sock h = Runtime.WriteOk) :
  forall (s : Statement) (st st' : Runtime.RtState),
  Runtime.exec_statement sock m c s st <> Some (Runtime.Failed st').
Proof.
  fix IH 1. intros s st st'.
  destruct s as [proto port body|event body|e|e|name e|cond tb eis eb];
    cbn [Runtime.exec_statement].
  - discriminate.
  - discriminate.
  - destruct (Runtime.eval_in m c st e) as [[v st1]|]; discriminate.
  - destruct (Runtime.eval_in m c st e) as [[v st1]|]; [|discriminate].
    rewrite Hok. discriminate.
  - destruct (Runtime.eval_in m c st e) as [[v st1]|]; discriminate.
  - destruct (Runtime.eval_in m c st cond) as [[v st1]|]; [|discriminate].
    (* the bodies are run by the inner loop of [exec_statement] *)
    let list_case l :=
      match goal with
      | |- ?F l st1 <> ?X =>
          refine ((fix IHl (l0 : list Statement) : forall st0, F l0 st0 <> X := _) l st1);
          intros st0; destruct l0 as [|s0 rest]; [discriminate|];
          cbn beta iota;
          destruct (Runtime.exec_statement sock m c s0 st0) as [[x|x]|] eqn:E;
          [exact (IHl rest x)|clear IHl; intros [= <-]; exact (IH s0 st0 x E)|discriminate]
      end in
    destruct (is_true v);
      [list_case tb|destruct eb as [l|]; [list_case l|discriminate]].
Qed.

Lemma exec_statements_no_fail (sock : Runtime.Socket) (m c : option string)
  (Hok : forall h, sock h = Runtime.WriteOk) (l : list Statement)
  (st st' : Runtime.RtState) :
  Runtime.exec_statements sock m c l st <> Some (Runtime.Failed st').
Proof.
  revert st. induction l as [|s l IH]; intros st; [discriminate|].
  cbn [Runtime.exec_statements].
  destruct (Runtime.exec_statement sock m c s st) as [[x|x]|] eqn:E.
  - apply IH.
  - intros [= <-]. exact (exec_statement_no_fail sock m c Hok s st x E).
  - discriminate.
Qed.

(** X3.  When every socket write succeeds, triggering an event runs, in
    order, the bodies of every [on] handler whose event name matches, as
    one statement list; the other statements are skipped. *)
Theorem trigger_event_runs_handler_bodies (sock : Runtime.Socket)
  (events : list Statement) (name : string) (m c : option string)
  (st : Runtime.RtState) :
  (forall h, sock h = Runtime.WriteOk) ->
  Runtime.exec_statements sock m c (handler_bodies events name) st =
  option_map Runtime.Done (Runtime.trigger_event sock events name m c st).
Proof.
  intros Hok. revert st. induction events as [|s events IH]; intros st; [reflexivity|].
  destruct s; cbn [handler_bodies flat_map Runtime.trigger_event app]; try apply IH.
  destruct (String.eqb event name); [|apply IH].
  rewrite exec_statements_app.
  destruct (Runtime.exec_statements sock m c body st) as [[x|x]|] eqn:E.
  - apply IH.
  - exfalso. exact (exec_statements_no_fail sock m c Hok body st x E).
  - reflexivity.
Qed.

(** X28.  The matching handlers run one after the other, and a handler
    whose socket write fails does not stop the ones after it: triggering
    an event on a concatenation of statement lists is triggering it on the
    first list, then on the second from the state reached; only a panic
    ends the run. *)
Theorem trigger_event_app (sock : Runtime.Socket) (a b : list Statement)
  (name : string) (m c : option string) (st : Runtime.RtState) :
  Runtime.trigger_event sock (app a b) name m c st =
  match Runtime.trigger_event sock a name m c st with
  | Some st' => Runtime.trigger_event sock b name m c st'
  | None => None
  end.
Proof.
  revert st. induction a as [|s a IH]; intros st; [reflexivity|].
  destruct s; cbn [app Runtime.trigger_event]; try apply IH.
  destruct (String.eqb event name); [|apply IH].
  destruct (Runtime.exec_statements sock m c body st) as [[x|x]|]; [apply IH|apply IH|reflexivity].
Qed.

(** X4.  Keeping only the [on] handlers of a server body ([extract_events])
    does not change what triggering any event does. *)
Theorem extract_events_keeps_handlers (sock : Runtime.Socket) (body : list Statement)
  (name : string) (m c : option string) (st : Runtime.RtState) :
  Runtime.trigger_event sock (Runtime.extract_events body) name m c st =
  Runtime.trigger_event sock body name m c st.
Proof.
  revert st. induction body as [|s body IH]; intros st; [reflexivity|].
  unfold Runtime.extract_events in *.
  destruct s; cbn [List.filter]; cbn [Runtime.trigger_event]; try apply IH.
  destruct (String.eqb event name); [|apply IH].
  destruct (Runtime.exec_statements sock m c body0 st) as [[x|x]|];
    [apply IH|apply IH|reflexivity].
Qed.

(** X5.  After [set name = e], logging [$name] prints the value of [e]: the
    variable is stored, and [set] and [log] report that value, after any
    warnings [e] produced.  [message] and [client] are excluded, as they
    are read from the connection and not from the variables. *)
Theorem set_then_log (sock : Runtime.Socket) (m c : option string)
  (st : Runtime.RtState) (name : string)
  (e : Expression) (v : string) (w : list Diagnostic) :
  name <> "message" -> name <> "client" ->
  eval_expression (Runtime.ctx_of m c st) e = Some (v, w) ->
  Runtime.exec_statements sock m c [SetVar name e; Log (EVariable name)] st =
  Some (Runtime.Done
          {| Runtime.rt_vars := <[name := v]> (Runtime.rt_vars st);
             Runtime.rt_out := Runtime.rt_out st ++ List.map Runtime.OWarn w ++
                               [Runtime.OSet name v; Runtime.OLog v] |}).
Proof.
  intros Hm Hc He. simpl. unfold Runtime.eval_in. rewrite He. simpl.
  unfold Runtime.eval_in, eval_expression. simpl.
  apply String.eqb_neq in Hm. apply String.eqb_neq in Hc.
  rewrite Hm, Hc. simpl. rewrite lookup_insert_eq.
  unfold Runtime.emit. simpl. rewrite app_nil_r.
  rewrite <- !app_assoc. reflexivity.
Qed.

Lemma prefix_empty (s : string) : String.prefix "" s = true.
Proof. destruct s; reflexivity. Qed.

Lemma rev_app (a b : string) : Str.rev (a ++ b) = Str.rev b ++ Str.rev a.
Proof.
  induction a as [|c a IH]; simpl.
  - rewrite sappend_nil_r. reflexivity.
  - rewrite IH. symmetry. apply sappend_assoc.
Qed.

Lemma rev_rev (s : string) : Str.rev (Str.rev s) = s.
Proof.
  induction s as [|c r IH]; [reflexivity|]. simpl.
  rewrite rev_app, IH. reflexivity.
Qed.

Lemma all_chars_app (p : ascii -> bool) (a b : string) :
  all_chars p (a ++ b) = all_chars p a && all_chars p b.
Proof.
  induction a as [|c a IH]; [reflexivity|]. simpl. rewrite IH. apply andb_assoc.
Qed.

Lemma all_chars_rev (p : ascii -> bool) (s : string) :
  all_chars p (Str.rev s) = all_chars p s.
Proof.
  induction s as [|c r IH]; [reflexivity|]. simpl.
  rewrite all_chars_app, IH. simpl. rewrite andb_true_r. apply andb_comm.
Qed.

Lemma drop_while_split (p : ascii -> bool) (s : string) :
  exists pre, s = pre ++ drop_while p s /\ all_chars p pre = true.
Proof.
  induction s as [|c r IH]; [exists ""; split; reflexivity|].
  simpl. destruct (p c) eqn:Hp.
  - destruct IH as [pre [Hs Hpre]]. exists (String c pre). simpl.
    rewrite Hp, Hpre. split; [rewrite sappend_cons, <- Hs; reflexivity|reflexivity].
  - exists "". split; reflexivity.
Qed.

Lemma drop_while_head (p : ascii -> bool) (s : string) (c : ascii) (r : string) :
  drop_while p s = String c r -> p c = false.
Proof.
  induction s as [|c' r' IH]; simpl; [discriminate|].
  destruct (p c') eqn:Hp; [exact IH|]. intros H. injection H as -> ->. exact Hp.
Qed.

Lemma drop_while_fixed (p : ascii -> bool) (s : string) :
  (forall c r, s = String c r -> p c = false) -> drop_while p s = s.
Proof.
  destruct s as [|c r]; [reflexivity|]. intros H. simpl.
  rewrite (H c r eq_refl). reflexivity.
Qed.

Lemma drop_while_idem (p : ascii -> bool) (s : string) :
  drop_while p (drop_while p s) = drop_while p s.
Proof.
  apply drop_while_fixed. intros c r H. exact (drop_while_head p s c r H).
Qed.

Lemma trim_start_drop (s : string) : Str.trim_start s = drop_while Str.is_whitespace s.
Proof. induction s as [|c r IH]; simpl; [reflexivity|]. rewrite IH. reflexivity. Qed.

Lemma trim_start_crlf_drop (s : string) :
  Runtime.trim_start_crlf s = drop_while Runtime.is_crlf s.
Proof. induction s as [|c r IH]; simpl; [reflexivity|]. rewrite IH. reflexivity. Qed.

(** Dropping [p]-characters from the end of a text: what is left, and
    the dropped suffix. *)
Lemma drop_end_split (p : ascii -> bool) (s : string) :
  let t := Str.rev (drop_while p (Str.rev s)) in
  exists tail, s = t ++ tail /\ all_chars p tail = true /\
               (forall x c, t = x ++ String c "" -> p c = false).
Proof.
  intros t. destruct (drop_while_split p (Str.rev s)) as [pre [Hs Hpre]].
  exists (Str.rev pre). split; [|split].
  - rewrite <- (rev_rev s) at 1. rewrite Hs, rev_app. reflexivity.
  - rewrite all_chars_rev. exact Hpre.
  - intros x c Ht.
    apply (drop_while_head p (Str.rev s) c (Str.rev x)).
    rewrite <- (rev_rev (drop_while p (Str.rev s))). fold t.
    rewrite Ht, rev_app. reflexivity.
Qed.

(** X7.  Trimming a received line removes exactly its trailing run of
    [CR] and [LF] characters: the line is the trimmed text followed by
    [CR]/[LF] characters only, and the trimmed text does not end in one. *)
Theorem trim_end_crlf_strips (s : string) :
  exists tail, s = Runtime.trim_end_crlf s ++ tail /\
               all_chars Runtime.is_crlf tail = true /\
               (forall x c, Runtime.trim_end_crlf s = x ++ String c "" ->
                            Runtime.is_crlf c = false).
Proof.
  unfold Runtime.trim_end_crlf. rewrite trim_start_crlf_drop.
  apply drop_end_split.
Qed.

Lemma trim_end_drop (s : string) :
  Str.trim_end s = Str.rev (drop_while Str.is_whitespace (Str.rev s)).
Proof. unfold Str.trim_end. rewrite trim_start_drop. reflexivity. Qed.

Lemma trim_end_idem (s : string) : Str.trim_end (Str.trim_end s) = Str.trim_end s.
Proof.
  rewrite !trim_end_drop, rev_rev, drop_while_idem. reflexivity.
Qed.

Lemma trim_start_idem (s : string) : Str.trim_start (Str.trim_start s) = Str.trim_start s.
Proof. rewrite !trim_start_drop. apply drop_while_idem. Qed.

(** Trimming the end of a text that starts with no whitespace leaves
    nothing to trim at its start. *)
Lemma trim_start_of_trim_end (a : string) :
  (forall c r, a = String c r -> Str.is_whitespace c = false) ->
  Str.trim_start (Str.trim_end a) = Str.trim_end a.
Proof.
  intros Ha. rewrite trim_start_drop. apply drop_while_fixed. intros c r Hb.
  destruct (drop_end_split Str.is_whitespace a) as [tail [Hs _]].
  rewrite <- trim_end_drop in Hs. rewrite Hb in Hs. simpl in Hs.
  exact (Ha c _ Hs).
Qed.

Lemma trim_idem (s : string) : Str.trim (Str.trim s) = Str.trim s.
Proof.
  unfold Str.trim. rewrite trim_start_of_trim_end.
  - apply trim_end_idem.
  - intros c r H. rewrite trim_start_drop in H. exact (drop_while_head _ _ c r H).
Qed.

(** X8.  Applying [trim], [ltrim] or [rtrim] twice gives the same result as
    applying it once. *)
Theorem trim_methods_idempotent (ctx : Ctx) (e : Expression) (m : string) :
  m = "trim" \/ m = "ltrim" \/ m = "rtrim" ->
  eval_expression ctx (MethodCall (MethodCall e m None) m None) =
  eval_expression ctx (MethodCall e m None).
Proof.
  intros Hm. unfold eval_expression. simpl.
  destruct (eval_expr_with (eval_template ctx) ctx e) as [[v w]|]; [|reflexivity].
  destruct Hm as [-> | [-> | ->]]; simpl;
    [rewrite trim_idem|rewrite trim_start_idem|rewrite trim_end_idem];
    rewrite app_nil_r; reflexivity.
Qed.

(** X9.  Reversing a value twice gives back the value, with its warnings. *)
Theorem reverse_twice (ctx : Ctx) (e : Expression) :
  eval_expression ctx (MethodCall (MethodCall e "reverse" None) "reverse" None) =
  eval_expression ctx e.
Proof.
  unfold eval_expression. simpl.
  destruct (eval_expr_with (eval_template ctx) ctx e) as [[v w]|]; [|reflexivity].
  simpl. rewrite rev_rev, !app_nil_r. reflexivity.
Qed.

Lemma string_of_uint_digits (u : Decimal.uint) :
  all_chars Str.is_ascii_digit (NilEmpty.string_of_uint u) = true.
Proof. induction u; simpl; try rewrite IHu; reflexivity. Qed.

Lemma scan_digits_all (acc : Z) (n : nat) (s : string) :
  all_chars Str.is_ascii_digit s = true ->
  snd (Num.scan_digits acc n s) = "" /\
  snd (fst (Num.scan_digits acc n s)) = (n + String.length s)%nat.
Proof.
  revert acc n. induction s as [|c r IH]; intros acc n H; simpl.
  - split; [reflexivity|lia].
  - simpl in H. apply andb_prop in H as [Hc Hr]. rewrite Hc.
    destruct (IH (10 * acc + Num.digit_value c)%Z (S n) Hr) as [H1 H2].
    split; [exact H1|rewrite H2; lia].
Qed.

Lemma parse_number_digits (neg : bool) (s : string) :
  s <> "" -> all_chars Str.is_ascii_digit s = true ->
  exists x, Num.parse_number neg s = Some x.
Proof.
  intros Hne Hd. unfold Num.parse_number.
  destruct (scan_digits_all 0 0 s Hd) as [H1 H2].
  destruct (Num.scan_digits 0 0 s) as [[m n1] r1]. simpl in H1, H2. subst r1 n1.
  simpl. destruct s as [|c r]; [congruence|]. simpl.
  eexists. reflexivity.
Qed.

Lemma parse_f64_digit_head (neg : bool) (c : ascii) (r : string) :
  Str.is_ascii_digit c = true ->
  Num.parse_f64 (String c r) = Num.parse_number false (String c r).
Proof.
  intros Hc. destruct c as [[][][][][][][][]]; try discriminate Hc; reflexivity.
Qed.

Lemma parse_f64_digits (s : string) :
  s <> "" -> all_chars Str.is_ascii_digit s = true ->
  exists x, Num.parse_f64 s = Some x.
Proof.
  intros Hne Hd. destruct s as [|c r]; [congruence|].
  pose proof Hd as Hd'. simpl in Hd'. apply andb_prop in Hd' as [Hc _].
  rewrite (parse_f64_digit_head false c r Hc).
  apply parse_number_digits; assumption.
Qed.

Lemma parse_f64_neg_digits (s : string) :
  s <> "" -> all_chars Str.is_ascii_digit s = true ->
  exists x, Num.parse_f64 (String "-" s) = Some x.
Proof.
  intros Hne Hd. unfold Num.parse_f64. simpl.
  destruct s as [|c r]; [congruence|]. simpl.
  pose proof Hd as Hd'. simpl in Hd'. apply andb_prop in Hd' as [Hc _].
  destruct (parse_number_digits true (String c r) Hne Hd) as [x Hx].
  destruct c as [[][][][][][][][]]; try discriminate Hc; simpl; eexists; exact Hx.
Qed.

Lemma of_Z_parses (z : Z) : exists x, Num.parse_f64 (Str.of_Z z) = Some x.
Proof.
  unfold Str.of_Z. destruct z as [|p|p]; simpl.
  - eexists. reflexivity.
  - apply parse_f64_digits; [|apply string_of_uint_digits].
    pose proof (DecimalPos.Unsigned.to_uint_nonnil p) as Hn.
    destruct (Pos.to_uint p); simpl; congruence.
  - apply parse_f64_neg_digits; [|apply string_of_uint_digits].
    pose proof (DecimalPos.Unsigned.to_uint_nonnil p) as Hn.
    destruct (Pos.to_uint p); simpl; congruence.
Qed.

(** X11.  [typeof] reports [number] for the decimal text of every integer,
    negative ones included. *)
Theorem type_of_integer_text (z : Z) : type_of (Str.of_Z z) = "number".
Proof.
  unfold type_of. destruct (of_Z_parses z) as [x ->]. reflexivity.
Qed.

(** X12.  Comparisons are mirrored by swapping their operands: [l > r] is
    [r < l], [l >= r] is [r <= l], and [==] and [!=] are symmetric. *)
Theorem comparison_mirror (l r : string) :
  compare_values GreaterThan l r = compare_values LessThan r l /\
  compare_values GreaterEqual l r = compare_values LessEqual r l /\
  compare_values Equal l r = compare_values Equal r l /\
  compare_values NotEqual l r = compare_values NotEqual r l.
Proof.
  unfold compare_values.
  destruct (Num.parse_f64 l) as [x|] eqn:Hl, (Num.parse_f64 r) as [y|] eqn:Hr;
    try (rewrite (String.compare_antisym l r), (String.eqb_sym l r);
         destruct (String.compare r l); repeat split; reflexivity).
  assert (Heq : Num.f64_eq x y = Num.f64_eq y x).
  { destruct x, y; simpl; try reflexivity.
    - apply Bool.eq_iff_eq_true. rewrite !Qeq_bool_iff. split; apply Qeq_sym.
    - destruct negative, negative0; reflexivity. }
  unfold Num.f64_le. rewrite Heq. repeat split; reflexivity.
Qed.

(** X13.  Comparing an expression with itself by [==] gives [true], unless
    its value reads as the float NaN, where it gives [false]; the warnings
    of the operand appear twice. *)
Theorem equal_self_unless_nan (ctx : Ctx) (e : Expression) (v : string)
  (w : list Diagnostic) :
  eval_expression ctx e = Some (v, w) ->
  eval_expression ctx (BinaryOp e Equal e) = Some (Str.of_bool (negb (is_nan v)), app w w).
Proof.
  unfold eval_expression. intros He. simpl. rewrite He. simpl.
  rewrite app_nil_r. unfold compare_values, is_nan.
  destruct (Num.parse_f64 v) as [[q|b|]|].
  - simpl. rewrite Qeq_bool_refl. reflexivity.
  - simpl. rewrite Bool.eqb_reflx. reflexivity.
  - reflexivity.
  - rewrite String.eqb_refl. reflexivity.
Qed.

(** X14.  A [server tcp "port" {] header followed by the end of input parses
    to a server with an empty body: the missing closing brace is not
    reported, and tokens after [EOF] are never read. *)
Theorem parse_unclosed_server (port : string) (rest : list Token.Token) :
  Parser.parse (Token.Server :: Token.TCP :: Token.TString port :: Token.LBrace ::
                Token.EOF :: rest) =
  Some (inr [Server "tcp" port []]).
Proof. vm_compute. reflexivity. Qed.

(** X15.  A program whose first token is neither [server] nor the end of
    input is rejected at index 0, with a [server] declaration expected. *)
Theorem parse_requires_server (t : Token.Token) (rest : list Token.Token) :
  t <> Token.Server -> t <> Token.EOF ->
  Parser.parse (t :: rest) =
  Some (inl (Parser.UnexpectedToken "'server' declaration" (Parser.FoundAt t) 0)).
Proof.
  intros H1 H2. destruct t; try congruence; vm_compute; reflexivity.
Qed.

Lemma parse_requires_server_witness :
  (Token.Send <> Token.Server /\ Token.Send <> Token.EOF) /\
  Parser.parse [Token.Send; Token.EOF] =
  Some (inl (Parser.UnexpectedToken "'server' declaration" (Parser.FoundAt Token.Send) 0)).
Proof.
  split; [split; discriminate|].
  apply parse_requires_server; discriminate.
Defined.

(** X16.  Comparisons do not chain: in [a op1 b op2 c] the expression ends
    after [a op1 b], so inside [log( ... )] the second operator is
    reported where [)] was expected. *)
Theorem comparisons_do_not_chain (a b c : string) (t1 t2 : Token.Token)
  (o1 o2 : BinaryOperator) :
  Parser.comparison_op t1 = Some o1 -> Parser.comparison_op t2 = Some o2 ->
  Parser.parse_expr [Token.TString a; t1; Token.TString b; t2; Token.TString c] =
  Parser.Ok (BinaryOp (EString a) o1 (EString b)) 3 /\
  (let ts := [Token.Log; Token.LParen; Token.TString a; t1; Token.TString b; t2;
              Token.TString c; Token.RParen] in
   Parser.parse_single_statement (Parser.parse_fuel ts) ts 0 =
   Parser.Err (Parser.UnexpectedToken "')'" (Parser.FoundGet (Some t2)) 5)).
Proof.
  intros H1 H2.
  destruct t1; try discriminate H1; injection H1 as <-;
  destruct t2; try discriminate H2; injection H2 as <-;
  split; vm_compute; reflexivity.
Qed.

Lemma comparisons_do_not_chain_witness :
  Parser.comparison_op Token.LessThan = Some LessThan /\
  Parser.comparison_op Token.LessThan = Some LessThan /\
  Parser.parse_expr [Token.TString "1"; Token.LessThan; Token.TString "2";
                     Token.LessThan; Token.TString "3"] =
  Parser.Ok (BinaryOp (EString "1") LessThan (EString "2")) 3.
Proof.
  split; [reflexivity|split; [reflexivity|]].
  exact (proj1 (comparisons_do_not_chain "1" "2" "3" Token.LessThan Token.LessThan
                  LessThan LessThan eq_refl eq_refl)).
Defined.

Lemma nth_app_len {A} (pre l : list A) (k : nat) :
  nth_error (app pre l) (length pre + k) = nth_error l k.
Proof. rewrite nth_error_app2 by lia. f_equal. lia. Qed.

Lemma length_flat_pairs (sep : Token.Token) (xs : list string) :
  length (flat_map (fun x => [sep; Token.TString x]) xs) = (2 * length xs)%nat.
Proof. induction xs as [|x xs IH]; simpl; [reflexivity|]. rewrite IH. lia. Qed.

Lemma len_lt_of_nth {A} (l : list A) (i : nat) (a : A) :
  nth_error l i = Some a -> (length l <=? i)%nat = false.
Proof. intros H. apply Nat.leb_gt, nth_error_Some. congruence. Qed.

Lemma primary_string (f : nat) (ts : list Token.Token) (i : nat) (x : string) :
  nth_error ts i = Some (Token.TString x) ->
  Parser.parse_primary_expression (S f) ts i = Parser.method_loop f ts (EString x) (S i).
Proof.
  intros Hi. cbn [Parser.parse_primary_expression].
  rewrite (len_lt_of_nth _ _ _ Hi), Hi. reflexivity.
Qed.

Lemma unary_primary (f : nat) (ts : list Token.Token) (i : nat) (t : Token.Token) :
  nth_error ts i = Some t -> t <> Token.Not ->
  Parser.parse_unary (S f) ts i = Parser.parse_primary_expression f ts i.
Proof.
  intros Hi Hn. cbn [Parser.parse_unary].
  rewrite (len_lt_of_nth _ _ _ Hi), Hi. destruct t; try reflexivity. congruence.
Qed.

Lemma method_loop_stop (f : nat) (ts : list Token.Token) (e : Expression) (i : nat) :
  nth_error ts i <> Some Token.Dot -> Parser.method_loop (S f) ts e i = Parser.Ok e i.
Proof.
  intros Hn. cbn [Parser.method_loop].
  destruct (nth_error ts i) as [t|]; [|reflexivity].
  destruct t; try reflexivity. congruence.
Qed.

Lemma parse_expression_S (f : nat) (ts : list Token.Token) (i : nat) :
  Parser.parse_expression (S f) ts i = Parser.parse_logical_or f ts i.
Proof. reflexivity. Qed.

Lemma parse_logical_or_S (f : nat) (ts : list Token.Token) (i : nat) :
  Parser.parse_logical_or (S f) ts i =
  Parser.pbind (Parser.parse_logical_and f ts i) (fun lhs i => Parser.or_loop f ts lhs i).
Proof. reflexivity. Qed.

Lemma or_loop_S (f : nat) (ts : list Token.Token) (lhs : Expression) (i : nat) :
  Parser.or_loop (S f) ts lhs i =
  match nth_error ts i with
  | Some Token.Or =>
      Parser.pbind (Parser.parse_logical_and f ts (S i))
        (fun rhs i => Parser.or_loop f ts (LogicalOp lhs Or rhs) i)
  | _ => Parser.Ok lhs i
  end.
Proof. reflexivity. Qed.

Lemma parse_logical_and_S (f : nat) (ts : list Token.Token) (i : nat) :
  Parser.parse_logical_and (S f) ts i =
  Parser.pbind (Parser.parse_comparison f ts i) (fun lhs i => Parser.and_loop f ts lhs i).
Proof. reflexivity. Qed.

Lemma and_loop_S (f : nat) (ts : list Token.Token) (lhs : Expression) (i : nat) :
  Parser.and_loop (S f) ts lhs i =
  match nth_error ts i with
  | Some Token.And =>
      Parser.pbind (Parser.parse_comparison f ts (S i))
        (fun rhs i => Parser.and_loop f ts (LogicalOp lhs And rhs) i)
  | _ => Parser.Ok lhs i
  end.
Proof. reflexivity. Qed.

Lemma args_loop_S (f : nat) (ts : list Token.Token) (args : list Expression) (i : nat) :
  Parser.args_loop (S f) ts args i =
  match nth_error ts i with
  | None | Some Token.RParen => Parser.Ok args i
  | Some _ =>
      Parser.pbind (Parser.parse_expression f ts i) (fun arg_expr i =>
        match nth_error ts i with
        | Some Token.Comma => Parser.args_loop f ts (app args [arg_expr]) (S i)
        | _ => Parser.Ok (app args [arg_expr]) i
        end)
  end.
Proof. reflexivity. Qed.

Lemma parse_comparison_S (f : nat) (ts : list Token.Token) (i : nat) :
  Parser.parse_comparison (S f) ts i =
  if (length ts <=? i)%nat then Parser.Err (Parser.UnexpectedEof "expression")
  else Parser.pbind (Parser.parse_unary f ts i) (fun expr i =>
    match match nth_error ts i with Some t => Parser.comparison_op t | None => None end with
    | Some operator =>
        Parser.pbind (Parser.parse_unary f ts (S i))
          (fun rhs i => Parser.Ok (BinaryOp expr operator rhs) i)
    | None => Parser.Ok expr i
    end).
Proof. reflexivity. Qed.

Lemma atom_comparison (f : nat) (ts : list Token.Token) (i : nat) (x : string) :
  nth_error ts i = Some (Token.TString x) -> ends_operand [] (nth_error ts (S i)) ->
  (4 <= f)%nat ->
  Parser.parse_comparison f ts i = Parser.Ok (EString x) (S i).
Proof.
  intros Hi Hn Hf. do 4 (destruct f as [|f]; [lia|]).
  rewrite parse_comparison_S, (len_lt_of_nth _ _ _ Hi).
  rewrite (unary_primary _ ts i _ Hi) by discriminate.
  rewrite (primary_string _ ts i x Hi).
  rewrite method_loop_stop
    by (intros Hd; destruct (Hn _ Hd) as [Hd' _]; apply Hd'; reflexivity).
  cbn [Parser.pbind].
  destruct (nth_error ts (S i)) as [t|] eqn:Ht; [|reflexivity].
  destruct (Hn t eq_refl) as [_ [Hc _]]. rewrite Hc. reflexivity.
Qed.

Lemma atom_logical_and (f : nat) (ts : list Token.Token) (i : nat) (x : string) :
  nth_error ts i = Some (Token.TString x) ->
  ends_operand [Token.And] (nth_error ts (S i)) -> (6 <= f)%nat ->
  Parser.parse_logical_and f ts i = Parser.Ok (EString x) (S i).
Proof.
  intros Hi Hn Hf. destruct f as [|f]; [lia|]. rewrite parse_logical_and_S.
  rewrite (atom_comparison f ts i x Hi); [|intros t Ht; destruct (Hn t Ht) as [? [? ?]]; auto|lia].
  cbn [Parser.pbind]. destruct f as [|f]; [lia|]. rewrite and_loop_S.
  destruct (nth_error ts (S i)) as [t|] eqn:Ht; [|reflexivity].
  destruct (Hn t eq_refl) as [_ [_ Hs]].
  destruct t; try reflexivity. exfalso. apply Hs. left. reflexivity.
Qed.

Lemma atom_expression (f : nat) (ts : list Token.Token) (i : nat) (x : string) :
  nth_error ts i = Some (Token.TString x) ->
  ends_operand [Token.And; Token.Or] (nth_error ts (S i)) -> (8 <= f)%nat ->
  Parser.parse_expression f ts i = Parser.Ok (EString x) (S i).
Proof.
  intros Hi Hn Hf. do 2 (destruct f as [|f]; [lia|]).
  rewrite parse_expression_S, parse_logical_or_S.
  rewrite (atom_logical_and f ts i x Hi);
    [|intros t Ht; destruct (Hn t Ht) as [? [? Hs]]; repeat split; auto;
      intros Hin; apply Hs; simpl in *; tauto|lia].
  cbn [Parser.pbind]. destruct f as [|f]; [lia|]. rewrite or_loop_S.
  destruct (nth_error ts (S i)) as [t|] eqn:Ht; [|reflexivity].
  destruct (Hn t eq_refl) as [_ [_ Hs]].
  destruct t; try reflexivity. exfalso. apply Hs. right. left. reflexivity.
Qed.

Lemma or_loop_chain (xs : list string) (pre : list Token.Token) (acc : Expression)
  (f : nat) (ts : list Token.Token) :
  ts = app pre (flat_map (fun x => [Token.Or; Token.TString x]) xs) ->
  (length xs + 7 <= f)%nat ->
  Parser.or_loop f ts acc (length pre) =
  Parser.Ok (fold_left (fun a x => LogicalOp a Or (EString x)) xs acc) (length ts).
Proof.
  revert pre acc f. induction xs as [|x xs IH]; intros pre acc f Hts Hf.
  - destruct f as [|f]; [lia|]. rewrite or_loop_S.
    rewrite Hts, app_nil_r, (proj2 (nth_error_None pre (length pre)) (le_n _)).
    reflexivity.
  - simpl in Hf. destruct f as [|f]; [lia|]. rewrite or_loop_S.
    assert (H0 : nth_error ts (length pre) = Some Token.Or).
    { rewrite Hts, <- (Nat.add_0_r (length pre)), nth_app_len. reflexivity. }
    assert (H1 : nth_error ts (S (length pre)) = Some (Token.TString x)).
    { rewrite Hts, <- Nat.add_1_r, nth_app_len. reflexivity. }
    rewrite H0.
    rewrite (atom_logical_and f ts (S (length pre)) x H1); [|intros t Ht|lia].
    + cbn [Parser.pbind].
      specialize (IH (app pre [Token.Or; Token.TString x]) (LogicalOp acc Or (EString x)) f).
      replace (length (app pre [Token.Or; Token.TString x])) with (S (S (length pre)))
        in IH by (rewrite length_app; simpl; lia).
      apply IH; [rewrite Hts, <- app_assoc; reflexivity|lia].
    + replace (S (S (length pre))) with (length pre + 2)%nat in Ht by lia.
      rewrite Hts in Ht.
      rewrite nth_app_len in Ht. simpl in Ht.
      destruct xs as [|y ys]; simpl in Ht; [discriminate|].
      injection Ht as <-. split; [discriminate|split; [reflexivity|]].
      intros [H|[]]. discriminate.
Qed.

Lemma and_loop_chain (xs : list string) (pre : list Token.Token) (acc : Expression)
  (f : nat) (ts : list Token.Token) :
  ts = app pre (flat_map (fun x => [Token.And; Token.TString x]) xs) ->
  (length xs + 5 <= f)%nat ->
  Parser.and_loop f ts acc (length pre) =
  Parser.Ok (fold_left (fun a x => LogicalOp a And (EString x)) xs acc) (length ts).
Proof.
  revert pre acc f. induction xs as [|x xs IH]; intros pre acc f Hts Hf.
  - destruct f as [|f]; [lia|]. rewrite and_loop_S.
    rewrite Hts, app_nil_r, (proj2 (nth_error_None pre (length pre)) (le_n _)).
    reflexivity.
  - simpl in Hf. destruct f as [|f]; [lia|]. rewrite and_loop_S.
    assert (H0 : nth_error ts (length pre) = Some Token.And).
    { rewrite Hts, <- (Nat.add_0_r (length pre)), nth_app_len. reflexivity. }
    assert (H1 : nth_error ts (S (length pre)) = Some (Token.TString x)).
    { rewrite Hts, <- Nat.add_1_r, nth_app_len. reflexivity. }
    rewrite H0.
    rewrite (atom_comparison f ts (S (length pre)) x H1); [|intros t Ht|lia].
    + cbn [Parser.pbind].
      specialize (IH (app pre [Token.And; Token.TString x]) (LogicalOp acc And (EString x)) f).
      replace (length (app pre [Token.And; Token.TString x])) with (S (S (length pre)))
        in IH by (rewrite length_app; simpl; lia).
      apply IH; [rewrite Hts, <- app_assoc; reflexivity|lia].
    + replace (S (S (length pre))) with (length pre + 2)%nat in Ht by lia.
      rewrite Hts in Ht.
      rewrite nth_app_len in Ht. simpl in Ht.
      destruct xs as [|y ys]; simpl in Ht; [discriminate|].
      injection Ht as <-. split; [discriminate|split; [reflexivity|]].
      intros [].
Qed.

(** X18.  A chain [x0 op x1 op ... op xn] of one logical operator parses to
    the left-nested tree [((x0 op x1) op ...) op xn] and uses all its
    tokens. *)
Theorem logical_chains_nest_left (op : LogicalOperator) (x0 : string) (xs : list string) :
  let sep := match op with And => Token.And | Or => Token.Or end in
  let ts := chain_tokens sep x0 xs in
  Parser.parse_expr ts =
  Parser.Ok (fold_left (fun a x => LogicalOp a op (EString x)) xs (EString x0)) (length ts).
Proof.
  intros sep ts. unfold Parser.parse_expr.
  assert (Hts : ts = app [Token.TString x0] (flat_map (fun x => [sep; Token.TString x]) xs))
    by reflexivity.
  assert (Hlen : length ts = S (2 * length xs)).
  { rewrite Hts. simpl. rewrite length_flat_pairs. reflexivity. }
  assert (Hf : (length xs + 10 <= Parser.parse_fuel ts)%nat).
  { unfold Parser.parse_fuel. rewrite Hlen. lia. }
  assert (Hend : nth_error ts (length ts) = None) by (apply nth_error_None; lia).
  assert (H0 : nth_error ts 0 = Some (Token.TString x0)) by (rewrite Hts; reflexivity).
  assert (Hnext : nth_error ts 1 = None \/ nth_error ts 1 = Some sep).
  { rewrite Hts. destruct xs; [left|right]; reflexivity. }
  generalize dependent (Parser.parse_fuel ts). intros F HF.
  clearbody ts. unfold sep in *. clear sep.
  do 2 (destruct F as [|F]; [lia|]).
  rewrite parse_expression_S, parse_logical_or_S.
  destruct op.
  - destruct F as [|F]; [lia|]. rewrite parse_logical_and_S.
    rewrite (atom_comparison F ts 0 x0 H0);
      [|intros t Ht; destruct Hnext as [Hn|Hn]; rewrite Hn in Ht; [discriminate|];
        injection Ht as <-; split; [discriminate|split; [reflexivity|intros []]]|lia].
    cbn [Parser.pbind].
    rewrite (and_loop_chain xs [Token.TString x0] _ F ts Hts); [|lia].
    cbn [Parser.pbind]. destruct F as [|F]; [lia|]. rewrite or_loop_S.
    rewrite Hend. reflexivity.
  - rewrite (atom_logical_and F ts 0 x0 H0);
      [|intros t Ht; destruct Hnext as [Hn|Hn]; rewrite Hn in Ht; [discriminate|];
        injection Ht as <-; split; [discriminate|split; [reflexivity|]];
        intros [H|[]]; discriminate|lia].
    cbn [Parser.pbind].
    exact (or_loop_chain xs [Token.TString x0] _ F ts Hts ltac:(lia)).
Qed.

Lemma method_loop_call (f : nat) (ts : list Token.Token) (e : Expression) (i : nat)
  (m : string) (args : list Expression) (j : nat) :
  nth_error ts i = Some Token.Dot -> nth_error ts (S i) = Some (Token.Ident m) ->
  nth_error ts (S (S i)) = Some Token.LParen ->
  Parser.args_loop f ts [] (S (S (S i))) = Parser.Ok args j ->
  nth_error ts j = Some Token.RParen ->
  Parser.method_loop (S f) ts e i =
  Parser.method_loop f ts (MethodCall e m (Parser.call_arg args)) (S j).
Proof.
  intros H1 H2 H3 H4 H5. cbn [Parser.method_loop]. rewrite H1, H2, H3.
  cbn [Parser.pbind]. rewrite H4. cbn [Parser.pbind]. rewrite H5. reflexivity.
Qed.

Lemma args_loop_chain (xs : list string) (x : string) (pre : list Token.Token)
  (acc : list Expression) (f : nat) (ts : list Token.Token) :
  ts = app pre (Token.TString x ::
                app (flat_map (fun y => [Token.Comma; Token.TString y]) xs) [Token.RParen]) ->
  (length xs + 10 <= f)%nat ->
  Parser.args_loop f ts acc (length pre) =
  Parser.Ok (app acc (EString x :: map EString xs)) (length ts - 1).
Proof.
  revert x pre acc f. induction xs as [|y xs IH]; intros x pre acc f Hts Hf;
    simpl in Hf; destruct f as [|f]; try lia; rewrite args_loop_S.
  - assert (H0 : nth_error ts (length pre) = Some (Token.TString x)).
    { rewrite Hts, <- (Nat.add_0_r (length pre)), nth_app_len. reflexivity. }
    assert (H1 : nth_error ts (S (length pre)) = Some Token.RParen).
    { rewrite Hts, <- Nat.add_1_r, nth_app_len. reflexivity. }
    rewrite H0. cbn [Parser.pbind].
    rewrite (atom_expression f ts (length pre) x H0);
      [|rewrite H1; intros t Ht; injection Ht as <-;
        split; [discriminate|split; [reflexivity|intros [H|[H|[]]]; discriminate]]|lia].
    cbn [Parser.pbind]. rewrite H1.
    replace (length ts - 1)%nat with (S (length pre)); [reflexivity|].
    rewrite Hts, length_app. simpl. lia.
  - assert (H0 : nth_error ts (length pre) = Some (Token.TString x)).
    { rewrite Hts, <- (Nat.add_0_r (length pre)), nth_app_len. reflexivity. }
    assert (H1 : nth_error ts (S (length pre)) = Some Token.Comma).
    { rewrite Hts, <- Nat.add_1_r, nth_app_len. reflexivity. }
    rewrite H0. cbn [Parser.pbind].
    rewrite (atom_expression f ts (length pre) x H0);
      [|rewrite H1; intros t Ht; injection Ht as <-;
        split; [discriminate|split; [reflexivity|intros [H|[H|[]]]; discriminate]]|lia].
    cbn [Parser.pbind]. rewrite H1.
    specialize (IH y (app pre [Token.TString x; Token.Comma]) (app acc [EString x]) f).
    replace (length (app pre [Token.TString x; Token.Comma])) with (S (S (length pre)))
      in IH by (rewrite length_app; simpl; lia).
    rewrite IH; [rewrite <- app_assoc; reflexivity| |lia].
    rewrite Hts, <- app_assoc. reflexivity.
Qed.

(** X20.  A method call [b.m(x1, ..., xn)] parses with no argument for an
    empty list, the literal itself for one argument, and a tuple of the
    literals for two or more. *)
Theorem method_call_arguments (b m : string) (xs : list string) :
  let ts := app [Token.TString b; Token.Dot; Token.Ident m; Token.LParen]
                (app (args_tokens xs) [Token.RParen]) in
  Parser.parse_expr ts =
  Parser.Ok (MethodCall (EString b) m (match xs with
                                        | [] => None
                                        | [x] => Some (EString x)
                                        | _ => Some (Tuple (map EString xs))
                                        end)) (length ts).
Proof.
  intros ts. destruct xs as [|x xs]; [vm_compute; reflexivity|].
  unfold Parser.parse_expr.
  set (pre := [Token.TString b; Token.Dot; Token.Ident m; Token.LParen]).
  assert (Hts : ts = app pre (Token.TString x ::
                app (flat_map (fun y => [Token.Comma; Token.TString y]) xs) [Token.RParen]))
    by reflexivity.
  assert (Hlen : length ts = (6 + 2 * length xs)%nat).
  { rewrite Hts, length_app. simpl. rewrite length_app, length_flat_pairs. simpl. lia. }
  assert (Hf : (length xs + 20 <= Parser.parse_fuel ts)%nat).
  { unfold Parser.parse_fuel. rewrite Hlen. lia. }
  assert (Hend : nth_error ts (length ts) = None) by (apply nth_error_None; lia).
  assert (Hlast : nth_error ts (length ts - 1) = Some Token.RParen).
  { set (L := app pre (Token.TString x ::
                          flat_map (fun y => [Token.Comma; Token.TString y]) xs)).
    assert (Hts' : ts = app L [Token.RParen])
      by (rewrite Hts; unfold L; rewrite <- app_assoc; reflexivity).
    replace (length ts - 1)%nat with (length L + 0)%nat
      by (rewrite Hts', length_app; simpl; lia).
    rewrite Hts', nth_app_len. reflexivity. }
  assert (Hl0 : (length ts <=? 0)%nat = false) by (apply Nat.leb_gt; lia).
  assert (Hn0 : nth_error ts 0 = Some (Token.TString b)) by reflexivity.
  assert (Hn1 : nth_error ts 1 = Some Token.Dot) by reflexivity.
  assert (Hn2 : nth_error ts 2 = Some (Token.Ident m)) by reflexivity.
  assert (Hn3 : nth_error ts 3 = Some Token.LParen) by reflexivity.
  assert (Hpre : length pre = 4%nat) by reflexivity.
  clearbody ts pre.
  pose proof (args_loop_chain xs x pre [] (Parser.parse_fuel ts - 7) ts Hts ltac:(lia)) as Hargs.
  rewrite Hpre in Hargs.
  generalize dependent (Parser.parse_fuel ts). intros F HF Hargs.
  do 7 (destruct F as [|F]; [lia|]).
  replace (S (S (S (S (S (S (S F)))))) - 7)%nat with F in Hargs by lia.
  rewrite parse_expression_S, parse_logical_or_S, parse_logical_and_S,
    parse_comparison_S, Hl0.
  rewrite (unary_primary _ ts 0 _ Hn0) by discriminate.
  rewrite (primary_string _ ts 0 b Hn0).
  rewrite (method_loop_call _ ts _ 1 m _ _ Hn1 Hn2 Hn3 Hargs Hlast).
  replace (S (length ts - 1)) with (length ts) by lia.
  destruct F as [|F]; [lia|].
  rewrite method_loop_stop by (rewrite Hend; discriminate).
  cbn [Parser.pbind]. rewrite Hend. cbn [Parser.pbind]. rewrite and_loop_S, Hend. cbn [Parser.pbind].
  rewrite or_loop_S, Hend.
  destruct xs; reflexivity.
Qed.

Lemma keyword_not_eof (s : string) : Lexer.keyword s <> Token.EOF.
Proof.
  unfold Lexer.keyword.
  repeat match goal with |- context [if ?b then _ else _] => destruct b end;
    discriminate.
Qed.

Lemma push_not_eof (tokens : list Token.Token) (t : Token.Token) :
  ~ In Token.EOF tokens -> t <> Token.EOF -> ~ In Token.EOF (app tokens [t]).
Proof.
  intros H1 H2 Hin. apply in_app_iff in Hin as [Hin|[Hin|[]]]; [exact (H1 Hin)|].
  apply H2. exact Hin.
Qed.

Lemma two_or_one_cases (c : ascii) (cs : string) (t2 t1 t : Token.Token)
  (rest : string) (w : nat) :
  Lexer.two_or_one c cs t2 t1 = (t, rest, w) -> t = t2 \/ t = t1.
Proof.
  unfold Lexer.two_or_one. destruct cs as [|c' r]; [intros [= <- _ _]; right; reflexivity|].
  destruct (Ascii.eqb c' c); intros [= <- _ _]; [left|right]; reflexivity.
Qed.

Lemma quote_bits : Lexer.QUOTE = Ascii false true false false false true false false.
Proof. reflexivity. Qed.

Lemma lf_bits : Lexer.LF = Ascii false true false true false false false false.
Proof. reflexivity. Qed.

Ltac eof_step IH Ht :=
  repeat match goal with
  | |- context [Lexer.read_ident ?a ?b] =>
      destruct (Lexer.read_ident a b) as [[? ?] ?]
  | |- context [Lexer.read_digits ?a ?b] =>
      destruct (Lexer.read_digits a b) as [[? ?] ?]
  | |- context [Lexer.skip_comment ?a ?b] =>
      destruct (Lexer.skip_comment a b) as [? ?]
  | |- context [Lexer.scan_string ?a ?b ?c ?d ?e ?f] =>
      destruct (Lexer.scan_string a b c d e f)
  | |- context [Lexer.two_or_one ?a ?b ?c ?d] =>
      let E := fresh "E" in
      destruct (Lexer.two_or_one a b c d) as [[? ?] ?] eqn:E;
      apply two_or_one_cases in E
  end;
  try exact I;
  try (apply IH; first [exact Ht | apply push_not_eof; [exact Ht|]];
       first [discriminate | apply keyword_not_eof
             | match goal with H : _ = _ \/ _ = _ |- _ =>
                 destruct H as [-> | ->]; discriminate end]).

Lemma lex_loop_eof_last (fuel : nat) (cs : string) (line column : nat)
  (tokens : list Token.Token) :
  ~ In Token.EOF tokens -> eof_last (Lexer.lex_loop fuel cs line column tokens).
Proof.
  revert cs line column tokens.
  induction fuel as [|fuel IH]; intros cs line column tokens Ht.
  - exists tokens. split; [reflexivity|exact Ht].
  - destruct cs as [|c r]; [exists tokens; split; [reflexivity|exact Ht]|].
    destruct c as [[][][][][][][][]];
      with_strategy opaque [Lexer.scan_string Lexer.read_ident Lexer.read_digits
                            Lexer.skip_comment Lexer.two_or_one] simpl;
      eof_step IH Ht.
    all: destruct r as [|c' r]; [eof_step IH Ht|].
    all: destruct c' as [[][][][][][][][]]; simpl; eof_step IH Ht.
Qed.

(** X21.  A successful lexing ends with one [EOF] token and has no other
    [EOF] before it. *)
Theorem lex_ends_with_single_eof (src : string) (ts : list Token.Token) :
  Lexer.lex src = Lexer.LexOk ts ->
  exists body, ts = app body [Token.EOF] /\ ~ In Token.EOF body.
Proof.
  intros H. pose proof (lex_loop_eof_last (S (String.length src)) src 1 1 [] (fun H => H))
    as He.
  unfold Lexer.lex in H. rewrite H in He. exact He.
Qed.

Lemma lex_ends_with_single_eof_witness :
  Lexer.lex "log(x)" = Lexer.LexOk [Token.Log; Token.LParen; Token.Ident "x"; Token.RParen;
                                    Token.EOF] /\
  exists body, [Token.Log; Token.LParen; Token.Ident "x"; Token.RParen; Token.EOF] =
               app body [Token.EOF] /\ ~ In Token.EOF body.
Proof.
  split; [vm_compute; reflexivity|].
  apply (lex_ends_with_single_eof "log(x)"). vm_compute. reflexivity.
Defined.

Lemma read_while_all (p : ascii -> bool) (s : string) :
  all_chars p s = true -> Template.read_while p s = (s, "").
Proof.
  induction s as [|c r IH]; simpl; [reflexivity|].
  intros H. apply andb_prop in H as [Hc Hr]. rewrite Hc, (IH Hr). reflexivity.
Qed.

Lemma parse_template_var (name : string) :
  all_chars Template.is_ident_char name = true ->
  Template.parse_template_expr (String "$" name) = Some (EVariable name).
Proof.
  destruct name as [|c r]; [reflexivity|]. intros H. simpl in H.
  apply andb_prop in H as [Hc Hr].
  destruct c as [[][][][][][][][]]; try discriminate Hc;
    simpl; rewrite (read_while_all _ r Hr); reflexivity.
Qed.

Lemma parse_template_plain (t : string) :
  Str.starts_with "$" t = false ->
  Template.parse_template_expr t = Some (EString t).
Proof.
  destruct t as [|c r]; [reflexivity|]. intros H.
  destruct c as [[][][][][][][][]]; try reflexivity.
  unfold Str.starts_with in H. simpl in H. rewrite prefix_empty in H. discriminate.
Qed.

(** [find] of a two-character pattern [d d] skips a text with no [d]. *)
Lemma find_skip (d : ascii) (a t : string) :
  all_chars (not_char d) a = true ->
  Str.find (String d (String d "")) (a ++ t) =
  option_map (Nat.add (String.length a)) (Str.find (String d (String d "")) t).
Proof.
  induction a as [|c a IH]; intros H.
  - rewrite sappend_nil_l. destruct (Str.find _ t); reflexivity.
  - simpl in H. apply andb_prop in H as [Hc Ha]. rewrite sappend_cons, find_cons.
    replace (String.prefix (String d (String d "")) (String c (a ++ t))) with false.
    + rewrite (IH Ha). destruct (Str.find _ t); reflexivity.
    + unfold not_char in Hc. simpl.
      destruct (ascii_dec d c) as [<-|]; [|reflexivity].
      rewrite Ascii.eqb_refl in Hc. discriminate.
Qed.

Lemma find_here (d : ascii) (t : string) :
  Str.find (String d (String d "")) (String d (String d "") ++ t) = Some 0%nat.
Proof.
  rewrite !sappend_cons, find_cons. simpl.
  destruct (ascii_dec d d) as [_|n]; [|congruence]. rewrite prefix_empty. reflexivity.
Qed.

Lemma substring_app_l (a t : string) : substring 0 (String.length a) (a ++ t) = a.
Proof.
  induction a as [|c a IH]; [destruct t; reflexivity|].
  rewrite sappend_cons. simpl. rewrite IH. reflexivity.
Qed.

Lemma substring_all (t : string) : substring 0 (String.length t) t = t.
Proof. pose proof (substring_app_l t "") as H. rewrite sappend_nil_r in H. exact H. Qed.

Lemma substring_skip (a t : string) (k : nat) :
  substring (String.length a) k (a ++ t) = substring 0 k t.
Proof.
  induction a as [|c a IH]; [reflexivity|]. rewrite sappend_cons. simpl. apply IH.
Qed.

Lemma length_sappend (a b : string) :
  String.length (a ++ b) = (String.length a + String.length b)%nat.
Proof. induction a as [|c a IH]; [reflexivity|]. rewrite sappend_cons. simpl. lia. Qed.

Lemma suffix_from_app (a t : string) :
  Template.suffix_from (String.length a) (a ++ t) = t.
Proof.
  unfold Template.suffix_from. rewrite substring_skip, length_sappend.
  replace (String.length a + String.length t - String.length a)%nat with (String.length t)
    by lia.
  apply substring_all.
Qed.

Lemma prefix_upto_app (a t : string) :
  Template.prefix_upto (String.length a) (a ++ t) = a.
Proof. apply substring_app_l. Qed.

Lemma find_absent (d : ascii) (t : string) :
  all_chars (not_char d) t = true -> Str.find (String d (String d "")) t = None.
Proof.
  intros H. rewrite <- (sappend_nil_r t). rewrite (find_skip d t "" H). reflexivity.
Qed.

Lemma template_loop_marker (em : string -> Eval string) (f : nat)
  (r rem : string) (st en : nat) :
  Str.find "{{" rem = Some st ->
  Str.find "}}" (Template.suffix_from st rem) = Some en ->
  template_loop em (S f) r rem =
  bind (em (substring 2 (en - 2) (Template.suffix_from st rem)))
    (fun v => template_loop em f ((r ++ Template.prefix_upto st rem) ++ v)
                (Template.suffix_from (en + 2) (Template.suffix_from st rem))).
Proof. intros H1 H2. cbn [template_loop]. rewrite H1, H2. reflexivity. Qed.

Lemma template_loop_done (em : string -> Eval string) (f : nat) (r rem : string) :
  Str.find "{{" rem = None -> template_loop em (S f) r rem = ret (r ++ rem).
Proof. intros H. cbn [template_loop]. rewrite H. reflexivity. Qed.

Lemma template_one_marker (em : string -> Eval string) (fuel : nat)
  (a body b v : string) (w : list Diagnostic) :
  all_chars (not_char "{") a = true -> all_chars (not_char "}") body = true ->
  all_chars (not_char "{") b = true -> em body = Some (v, w) ->
  template_loop em (S (S fuel)) "" (a ++ "{{" ++ body ++ "}}" ++ b) =
  Some (a ++ v ++ b, w).
Proof.
  intros Ha Hbody Hb Hem.
  assert (Hopen : all_chars (not_char "}") ("{{" ++ body) = true) by exact Hbody.
  assert (H1 : Str.find "{{" (a ++ "{{" ++ body ++ "}}" ++ b) = Some (String.length a)).
  { rewrite (find_skip "{" a _ Ha), find_here. simpl. f_equal. lia. }
  assert (Hsuf : Template.suffix_from (String.length a) (a ++ "{{" ++ body ++ "}}" ++ b)
                 = ("{{" ++ body) ++ "}}" ++ b).
  { rewrite suffix_from_app. apply sappend_assoc. }
  assert (H2 : Str.find "}}" (("{{" ++ body) ++ "}}" ++ b) =
               Some (String.length ("{{" ++ body))).
  { rewrite (find_skip "}" ("{{" ++ body) _ Hopen), find_here. simpl. f_equal. lia. }
  rewrite <- Hsuf in H2.
  rewrite (template_loop_marker em (S fuel) "" _ _ _ H1 H2), Hsuf.
  replace (String.length ("{{" ++ body) - 2)%nat with (String.length "{{" + String.length body - String.length "{{")%nat
    by (rewrite length_sappend; simpl; lia).
  replace (substring 2 _ (("{{" ++ body) ++ "}}" ++ b)) with body.
  2:{ rewrite <- sappend_assoc. change 2%nat with (String.length "{{").
      rewrite Nat.add_comm, Nat.add_sub, substring_skip, substring_app_l. reflexivity. }
  rewrite Hem.
  replace (String.length ("{{" ++ body) + 2)%nat with (String.length (("{{" ++ body) ++ "}}"))
    by (rewrite !length_sappend; simpl; lia).
  rewrite (sappend_assoc ("{{" ++ body)), suffix_from_app, prefix_upto_app,
    sappend_nil_l.
  cbv [bind]; cbv beta iota.
  rewrite (template_loop_done em fuel _ b (find_absent "{" b Hb)).
  unfold ret. rewrite app_nil_r, <- sappend_assoc. reflexivity.
Qed.

Lemma length_marker (a body b : string) :
  exists k, String.length (a ++ "{{" ++ body ++ "}}" ++ b) = S (S k).
Proof.
  exists (String.length a + String.length body + S (S (String.length b)))%nat.
  rewrite !length_sappend. simpl. lia.
Qed.

Lemma ident_no_close (name : string) :
  all_chars Template.is_ident_char name = true ->
  all_chars (not_char "}") (String "$" name) = true.
Proof.
  intros Hn. simpl. induction name as [|c r IH]; [reflexivity|].
  simpl in *. apply andb_prop in Hn as [Hc Hr]. rewrite (IH Hr), andb_true_r.
  destruct c as [[][][][][][][][]]; try discriminate Hc; reflexivity.
Qed.

Lemma template_var_marker_aux (ctx : Ctx) (a name b : string) :
  all_chars (not_char "{") a = true ->
  all_chars Template.is_ident_char name = true ->
  all_chars (not_char "{") b = true ->
  eval_template ctx (a ++ "{{$" ++ name ++ "}}" ++ b) =
  bind (eval_expression ctx (EVariable name)) (fun v => ret (a ++ v ++ b)).
Proof.
  intros Ha Hn Hb.
  assert (exists v, eval_expression ctx (EVariable name) = Some (v, [])) as [v Hv]
    by (unfold eval_expression; cbn [eval_expr_with];
        destruct (String.eqb name "message"); [eexists; reflexivity|];
        destruct (String.eqb name "client"); eexists; reflexivity).
  rewrite Hv. destruct (length_marker a (String "$" name) b) as [k Hk].
  change ("{{$" ++ name ++ "}}" ++ b) with ("{{" ++ String "$" name ++ "}}" ++ b).
  unfold eval_template. rewrite Hk. cbn [eval_template_n]. rewrite Hk.
  rewrite (template_one_marker _ (S k) a (String "$" name) b v []
             Ha (ident_no_close name Hn) Hb); [reflexivity|].
  cbv beta. rewrite (parse_template_var name Hn). exact Hv.
Qed.

Lemma no_brace_no_dollar_plain (ctx : Ctx) (n : nat) (t : string) :
  all_chars (not_char "{") t = true -> Str.starts_with "$" t = false ->
  eval_expr_with (eval_template_n (S n) ctx) ctx (EString t) = Some (t, []).
Proof.
  intros Ht Hd. cbn [eval_expr_with eval_template_n].
  rewrite (template_loop_done _ _ "" t (find_absent "{" t Ht)). reflexivity.
Qed.

(** X22.  A marker [{{$name}}] in a text with no other [{] is replaced by
    the value of the variable [name], the text around it kept as is. *)
Theorem template_variable_marker (ctx : Ctx) (a name b : string) :
  all_chars (not_char "{") a = true ->
  all_chars Template.is_ident_char name = true ->
  all_chars (not_char "{") b = true ->
  eval_template ctx (a ++ "{{$" ++ name ++ "}}" ++ b) =
  bind (eval_expression ctx (EVariable name)) (fun v => ret (a ++ v ++ b)).
Proof. apply template_var_marker_aux. Qed.

(** X23.  A marker [{{$name}}] for a name that is neither [message],
    [client] nor a set variable is rendered as [$name]. *)
Theorem template_unbound_variable (ctx : Ctx) (a name b : string) :
  all_chars (not_char "{") a = true ->
  all_chars Template.is_ident_char name = true ->
  all_chars (not_char "{") b = true ->
  name <> "message" -> name <> "client" -> vars ctx !! name = None ->
  eval_template ctx (a ++ "{{$" ++ name ++ "}}" ++ b) =
  Some (a ++ "$" ++ name ++ b, []).
Proof.
  intros Ha Hn Hb Hm Hc Hv. rewrite (template_var_marker_aux ctx a name b Ha Hn Hb).
  unfold eval_expression. cbn [eval_expr_with].
  apply String.eqb_neq in Hm. apply String.eqb_neq in Hc. rewrite Hm, Hc, Hv.
  reflexivity.
Qed.

(** X24.  A marker [{{t}}] whose text does not start with [$] (and holds no
    braces) is replaced by [t] itself: only the braces are removed. *)
Theorem template_plain_marker (ctx : Ctx) (a t b : string) :
  all_chars (not_char "{") a = true ->
  all_chars (not_char "{") t = true -> all_chars (not_char "}") t = true ->
  Str.starts_with "$" t = false ->
  all_chars (not_char "{") b = true ->
  eval_template ctx (a ++ "{{" ++ t ++ "}}" ++ b) = Some (a ++ t ++ b, []).
Proof.
  intros Ha Ht1 Ht2 Hd Hb. destruct (length_marker a t b) as [k Hk].
  unfold eval_template. rewrite Hk. cbn [eval_template_n]. rewrite Hk.
  apply (template_one_marker _ (S k) a t b t [] Ha Ht2 Hb).
  cbv beta. rewrite (parse_template_plain t Hd).
  exact (no_brace_no_dollar_plain ctx (S k) t Ht1 Hd).
Qed.

Lemma skip_comment_len (cs : string) (c : nat) rest col :
  Lexer.skip_comment cs c = (rest, col) -> String.length rest <= String.length cs.
Proof.
  revert c. induction cs as [|ch r IH]; intros c; simpl.
  - intros H; injection H; intros; subst; simpl; lia.
  - destruct (Ascii.eqb ch Lexer.LF); [intros H; injection H; intros; subst; simpl; lia|].
    intros H. apply IH in H. lia.
Qed.

Lemma read_ident_len (cs : string) (c : nat) w rest col :
  Lexer.read_ident cs c = (w, rest, col) -> String.length rest <= String.length cs.
Proof.
  revert c w rest col. induction cs as [|ch r IH]; intros c w rest col; simpl.
  - intros H; injection H; intros; subst; simpl; lia.
  - destruct (Template.is_ident_char ch); [|intros H; injection H; intros; subst; simpl; lia].
    destruct (Lexer.read_ident r (S c)) as [[w' rest'] col'] eqn:E.
    intros H; injection H; intros; subst; apply IH in E; simpl; lia.
Qed.

Lemma read_digits_len (cs : string) (c : nat) w rest col :
  Lexer.read_digits cs c = (w, rest, col) -> String.length rest <= String.length cs.
Proof.
  revert c w rest col. induction cs as [|ch r IH]; intros c w rest col; simpl.
  - intros H; injection H; intros; subst; simpl; lia.
  - destruct (Str.is_ascii_digit ch); [|intros H; injection H; intros; subst; simpl; lia].
    destruct (Lexer.read_digits r (S c)) as [[w' rest'] col'] eqn:E.
    intros H; injection H; intros; subst; apply IH in E; simpl; lia.
Qed.

Lemma read_method_chain_len (inner : bool) (cs s : string) (c : nat) w rest col :
  Lexer.read_method_chain inner cs s c = (w, rest, col) ->
  String.length rest <= String.length cs.
Proof.
  revert inner s c. induction cs as [|ch r IH]; intros inner s c; simpl.
  - intros H; injection H; intros; subst; simpl; lia.
  - destruct inner; [intros H; apply IH in H; lia|].
    destruct (Ascii.eqb ch "."); [intros H; apply IH in H; lia|].
    intros H; injection H; intros; subst; simpl; lia.
Qed.

Lemma scan_braces_len (d : nat) (cs s : string) (c : nat) w rest col :
  Lexer.scan_braces d cs s c = (w, rest, col) -> String.length rest <= String.length cs.
Proof.
  revert d s c. induction cs as [|ch r IH]; intros d s c; simpl.
  - intros H; injection H; intros; subst; simpl; lia.
  - destruct (Ascii.eqb ch "{"); [intros H; apply IH in H; lia|].
    destruct (Ascii.eqb ch "}"); [destruct (d =? 1)%nat; [intros H; injection H; intros; subst; simpl; lia|]|];
      intros H; apply IH in H; lia.
Qed.

Lemma scan_string_len (f l sc : nat) (cs s : string) (c : nat) s' rest col :
  Lexer.scan_string f l sc cs s c = Lexer.ScanOk s' rest col ->
  String.length rest <= String.length cs.
Proof.
  revert cs s c. induction f as [|f IH]; intros cs s c; [discriminate|].
  destruct cs as [|ch r]; [discriminate|]. cbn [Lexer.scan_string].
  destruct (Ascii.eqb ch Lexer.QUOTE); [intros H; injection H; intros; subst; simpl; lia|].
  destruct (Ascii.eqb ch Lexer.LF); [discriminate|].
  destruct (Ascii.eqb ch "\").
  { destruct r as [|nc r']; [discriminate|].
    destruct (Lexer.decode_escape nc); [|discriminate].
    intros H. apply IH in H. simpl. lia. }
  destruct (Ascii.eqb ch "$").
  { destruct r as [|c1 r1].
    - cbn. intros H. apply IH in H. simpl in *. lia.
    - destruct c1 as [[][][][][][][][]]; cbn beta iota;
        repeat match goal with
        | |- context [Lexer.scan_braces ?d ?a ?b ?c] =>
            let E := fresh "E" in
            destruct (Lexer.scan_braces d a b c) as [[? ?] ?] eqn:E;
            apply scan_braces_len in E
        | |- context [Lexer.read_ident ?a ?b] =>
            let E := fresh "E" in
            destruct (Lexer.read_ident a b) as [[? ?] ?] eqn:E;
            apply read_ident_len in E
        | |- context [Lexer.read_method_chain ?i ?a ?b ?c] =>
            let E := fresh "E" in
            destruct (Lexer.read_method_chain i a b c) as [[? ?] ?] eqn:E;
            apply read_method_chain_len in E
        end;
        intros H; apply IH in H; simpl in *; lia. }
  intros H. apply IH in H. simpl. lia.
Qed.

Lemma two_or_one_len (c : ascii) (cs : string) (t2 t1 t : Token.Token) rest w :
  Lexer.two_or_one c cs t2 t1 = (t, rest, w) -> String.length rest <= String.length cs.
Proof.
  unfold Lexer.two_or_one. destruct cs as [|c' r].
  - intros H; injection H; intros; subst; simpl; lia.
  - destruct (Ascii.eqb c' c); intros H; injection H; intros; subst; simpl; lia.
Qed.

Ltac fuel_step IH :=
  repeat match goal with
  | |- context [Lexer.read_ident ?a ?b] =>
      let E := fresh "E" in
      destruct (Lexer.read_ident a b) as [[? ?] ?] eqn:E; apply read_ident_len in E
  | |- context [Lexer.read_digits ?a ?b] =>
      let E := fresh "E" in
      destruct (Lexer.read_digits a b) as [[? ?] ?] eqn:E; apply read_digits_len in E
  | |- context [Lexer.skip_comment ?a ?b] =>
      let E := fresh "E" in
      destruct (Lexer.skip_comment a b) as [? ?] eqn:E; apply skip_comment_len in E
  | |- context [Lexer.scan_string ?a ?b ?c ?d ?e ?f] =>
      let E := fresh "E" in
      destruct (Lexer.scan_string a b c d e f) as [? ? ?|?] eqn:E;
      [apply scan_string_len in E|]
  | |- context [Lexer.two_or_one ?a ?b ?c ?d] =>
      let E := fresh "E" in
      destruct (Lexer.two_or_one a b c d) as [[? ?] ?] eqn:E; apply two_or_one_len in E
  end;
  try reflexivity; apply IH; simpl in *; lia.

Lemma lex_loop_fuel (f1 f2 : nat) (cs : string) (line column : nat)
  (tokens : list Token.Token) :
  String.length cs < f1 -> String.length cs < f2 ->
  Lexer.lex_loop f1 cs line column tokens = Lexer.lex_loop f2 cs line column tokens.
Proof.
  revert f2 cs line column tokens.
  induction f1 as [|f1 IH]; intros f2 cs line column tokens H1 H2; [lia|].
  destruct f2 as [|f2]; [lia|].
  destruct cs as [|c r]; [reflexivity|]. simpl in H1, H2.
  assert (IH' : forall f cs line column tokens, String.length cs < f1 -> String.length cs < f ->
            Lexer.lex_loop f1 cs line column tokens = Lexer.lex_loop f cs line column tokens)
    by (intros; apply IH; assumption).
  clear IH.
  destruct c as [[][][][][][][][]];
    with_strategy opaque [Lexer.scan_string Lexer.read_ident Lexer.read_digits
                          Lexer.skip_comment Lexer.two_or_one] simpl;
    try fuel_step IH'.
  all: destruct r as [|c' r]; [fuel_step IH'|].
  all: destruct c' as [[][][][][][][][]]; simpl; fuel_step IH'.
Qed.

Lemma skip_comment_app (s t : string) (c : nat) :
  all_chars (not_char Lexer.LF) s = true ->
  Lexer.skip_comment (s ++ t) c = Lexer.skip_comment t (c + String.length s).
Proof.
  revert c. induction s as [|ch s IH]; intros c H.
  - rewrite Nat.add_0_r. reflexivity.
  - simpl in H. apply andb_prop in H as [Hc Hs]. unfold not_char in Hc.
    apply negb_true_iff in Hc. rewrite sappend_cons. simpl. rewrite Hc, (IH _ Hs).
    f_equal. simpl. lia.
Qed.

Lemma lex_loop_comment (f : nat) (x : string) (line column : nat)
  (tokens : list Token.Token) :
  Lexer.lex_loop (S f) (String "/" (String "/" x)) line column tokens =
  let '(rest, col) := Lexer.skip_comment x column in
  Lexer.lex_loop f rest line col tokens.
Proof. reflexivity. Qed.

Lemma lex_loop_newline (f : nat) (r : string) (line column : nat)
  (tokens : list Token.Token) :
  Lexer.lex_loop (S f) (String Lexer.LF r) line column tokens =
  Lexer.lex_loop f r (S line) 1 tokens.
Proof. reflexivity. Qed.

(** X25.  A [//] comment up to the end of its line leaves no trace,
    wherever the lexer meets it: from the comment on, the lexer produces
    what it produces from the line break that ends it, from the same
    position and with the same tokens before, line and column numbers
    included.  For example [log(x) // note] followed by a line break lexes
    as [log(x) ] followed by the same line break. *)
Theorem comment_line_dropped (s rest : string) (f1 f2 line column : nat)
  (tokens : list Token.Token) :
  all_chars (not_char Lexer.LF) s = true ->
  String.length ("//" ++ s ++ String Lexer.LF rest) < f1 ->
  String.length (String Lexer.LF rest) < f2 ->
  Lexer.lex_loop f1 ("//" ++ s ++ String Lexer.LF rest) line column tokens =
  Lexer.lex_loop f2 (String Lexer.LF rest) line column tokens /\
  Lexer.lex ("log(x) // note" ++ String Lexer.LF "log(y)") =
  Lexer.lex ("log(x) " ++ String Lexer.LF "log(y)").
Proof.
  intros Hs H1 H2. split; [|vm_compute; reflexivity].
  change ("//" ++ s ++ String Lexer.LF rest) with
    (String "/" (String "/" (s ++ String Lexer.LF rest))) in *.
  cbn [String.length] in H1, H2. rewrite length_sappend in H1. cbn [String.length] in H1.
  destruct f1 as [|[|f1]]; [lia|lia|]. destruct f2 as [|f2]; [lia|].
  rewrite lex_loop_comment, (skip_comment_app s _ _ Hs).
  cbn [Lexer.skip_comment]. rewrite Ascii.eqb_refl.
  destruct f1 as [|f1]; [lia|].
  rewrite !lex_loop_newline. apply lex_loop_fuel; lia.
Qed.

(** X26.  A source that is a single [//] comment lexes to the lone [EOF]
    token, whatever characters the comment holds. *)
Theorem comment_only_source (s : string) :
  all_chars (not_char Lexer.LF) s = true ->
  Lexer.lex ("//" ++ s) = Lexer.LexOk [Token.EOF].
Proof.
  intros Hs. unfold Lexer.lex.
  change ("//" ++ s) with (String "/" (String "/" s)).
  rewrite <- (sappend_nil_r s) at 2. cbn [String.length].
  rewrite lex_loop_comment, (skip_comment_app s "" _ Hs). reflexivity.
Qed.

Lemma comment_line_dropped_witness :
  Lexer.lex_loop 20 ("//" ++ "note @ ~" ++ String Lexer.LF "log(x)") 2 8
    [Token.Ident "log"] =
  Lexer.lex_loop 8 (String Lexer.LF "log(x)") 2 8 [Token.Ident "log"].
Proof.
  exact (proj1 (comment_line_dropped "note @ ~" "log(x)" 20 8 2 8 [Token.Ident "log"]
                  eq_refl ltac:(apply Nat.ltb_lt; reflexivity)
                  ltac:(apply Nat.ltb_lt; reflexivity))).
Defined.

Lemma comment_only_source_witness :
  Lexer.lex ("//" ++ "anything #!") = Lexer.LexOk [Token.EOF].
Proof. apply comment_only_source. reflexivity. Defined.

End Generic.

(* ------------------------------------------------------------------ *)
(** ** Instances of the statements with hypotheses about evaluation *)

#[local] Existing Instance ascii_case.

Lemma trigger_event_runs_handler_bodies_witness :
  Runtime.exec_statements (fun _ => Runtime.WriteOk) None (Some "7")
    (handler_bodies [On "connect" [Send (EString "hi")]; Log (EString "x");
                     On "connect" [Log (EString "again")]] "connect") st0 =
  option_map Runtime.Done
    (Runtime.trigger_event (fun _ => Runtime.WriteOk)
       [On "connect" [Send (EString "hi")]; Log (EString "x");
        On "connect" [Log (EString "again")]] "connect" None (Some "7") st0).
Proof. apply trigger_event_runs_handler_bodies. intros h. reflexivity. Defined.

Lemma set_then_log_witness :
  ("x" <> "message" /\ "x" <> "client") /\
  Runtime.exec_statements (fun _ => Runtime.WriteOk) None None
    [SetVar "x" (Number 7); Log (EVariable "x")] st0 =
  Some (Runtime.Done {| Runtime.rt_vars := <["x" := "7"]> ∅;
                        Runtime.rt_out := [Runtime.OSet "x" "7"; Runtime.OLog "7"] |}).
Proof.
  split; [split; discriminate|].
  apply (set_then_log (fun _ => Runtime.WriteOk) None None st0 "x" (Number 7) "7" []);
    [discriminate|discriminate|reflexivity].
Defined.

Lemma trim_methods_idempotent_witness :
  eval_expression ctx_x (MethodCall (MethodCall (EString "  a ") "trim" None) "trim" None) =
  Some ("a", []).
Proof.
  rewrite (trim_methods_idempotent ctx_x (EString "  a ") "trim");
    [vm_compute; reflexivity | left; reflexivity].
Defined.

Lemma equal_self_unless_nan_witness :
  eval_expression ctx_x (EString "NaN") = Some ("NaN", []) /\
  eval_expression ctx_x (BinaryOp (EString "NaN") Equal (EString "NaN")) =
  Some ("false", []).
Proof.
  split; [vm_compute; reflexivity|].
  exact (equal_self_unless_nan ctx_x (EString "NaN") "NaN" [] ltac:(vm_compute; reflexivity)).
Defined.

Lemma template_variable_marker_witness :
  eval_template ctx_x ("id=" ++ "{{$" ++ "x" ++ "}}" ++ ";") = Some ("id=5;", []).
Proof. rewrite (template_variable_marker ctx_x "id=" "x" ";"); reflexivity. Defined.

Lemma template_unbound_variable_witness :
  eval_template ctx_x ("a " ++ "{{$" ++ "y" ++ "}}" ++ " b") = Some ("a $y b", []).
Proof.
  apply (template_unbound_variable ctx_x "a " "y" " b");
    [reflexivity|reflexivity|reflexivity|discriminate|discriminate|reflexivity].
Defined.

Lemma template_plain_marker_witness :
  eval_template ctx_x ("<" ++ "{{" ++ "hi" ++ "}}" ++ ">") = Some ("<hi>", []).
Proof. apply (template_plain_marker ctx_x "<" "hi" ">"); reflexivity. Defined.

End Extra.
